(** * polygon-cli: the p2p crawler's node update and the devp2p message codec

    A shallow embedding of
    - [cmd/p2p/crawl/crawl_util.go]: [newCrawler], [shouldSkipNode],
      [updateNode], [truncNow];
    - the [p2p] package's message types, [Conn.Read] and [Conn.ReadSnap];
    together with the parts of the Go runtime ([int], [time]) and of
    go-ethereum's [rlp] package that this code relies on. *)

From Stdlib Require Import ZArith NArith List Lia Bool.
From Stdlib Require Strings.Byte.
From stdpp Require Import base option list gmap.
Import ListNotations.

(** ** Go runtime: machine integers and [time] *)

Module Go.
Local Open Scope Z_scope.

Definition min_int64 : Z := - 2 ^ 63.
Definition max_int64 : Z := 2 ^ 63 - 1.

(** A Go [int] (64 bits on every platform the tool is built for) is a [Z]
    in [min_int64 .. max_int64]; arithmetic wraps around. *)
Definition wrap_int64 (z : Z) : Z := (z + 2 ^ 63) mod 2 ^ 64 - 2 ^ 63.

(** [x++] *)
Definition int_incr (x : Z) : Z := wrap_int64 (x + 1).

(** [x / y] on integers truncates toward zero.  The quotient of two
    [int]s is an [int] again, but for [min_int64 / -1]. *)
Definition int_quo (x y : Z) : Z := Z.quot x y.

(** [uint64] arithmetic. *)
Definition wrap_uint64 (z : Z) : Z := z mod 2 ^ 64.

(** [int(code)] for a [uint64] code: same bits, read as signed. *)
Definition int_of_uint64 (u : Z) : Z := wrap_int64 u.

(** A [time.Time] is the number of nanoseconds since Go's zero time
    (January 1, year 1, 00:00 UTC); a [time.Duration] is an [int64] count
    of nanoseconds. *)
Definition Time : Type := Z.
Definition Duration : Type := Z.

Definition Second : Duration := 1000000000.

(** [t.IsZero()] *)
Definition IsZero (t : Time) : bool := t =? 0.

(** [t.Sub(u)]: the difference, saturated to the range of [Duration]. *)
Definition Sub (t u : Time) : Duration :=
  let d := t - u in
  if d <? min_int64 then min_int64
  else if max_int64 <? d then max_int64
  else d.

(** [time.Since(t)] at a moment when [time.Now()] reads [now]. *)
Definition Since (now t : Time) : Duration := Sub now t.

(** [t.Truncate(d)]: [t] rounded down to a multiple of [d] since the zero
    time; [t] itself when [d <= 0]. *)
Definition Truncate (t : Time) (d : Duration) : Time :=
  if d <=? 0 then t else t - t mod d.

End Go.

(** ** cmd/p2p/crawl/crawl_util.go *)

Module Crawl.
Import Go.
Local Open Scope Z_scope.

(** [enode.ID], a 32-byte identity, as a number. *)
Definition ID : Type := N.

(** What the crawler reads of an [*enode.Node]: [n.ID()] and [n.Seq()]. *)
Record Node : Type := mkNode { node_ID : ID; node_Seq : Z }.

(** Modelled from the spec: the record type of [p2p.NodeSet]
    ([map[enode.ID]...]) is declared in the [p2p] package, outside
    [crawl_util.go].  Its fields
    are the ones [updateNode] reads and writes, which are the ones the
    spec's data model lists: the signed descriptor [N] (here [N'], [None]
    for the nil pointer) and its sequence number, the score (an [int]),
    and the three timestamps. *)
Record NodeJSON : Type := mkNodeJSON {
  Seq : Z;
  N' : option Node;
  Score : Z;
  FirstResponse : Time;
  LastResponse : Time;
  LastCheck : Time
}.

(** The zero value, which a Go map lookup yields for a missing key. *)
Definition zeroNodeJSON : NodeJSON :=
  {| Seq := 0; N' := None; Score := 0;
     FirstResponse := 0; LastResponse := 0; LastCheck := 0 |}.

Definition set_LastCheck (t : Time) (x : NodeJSON) : NodeJSON :=
  {| Seq := Seq x; N' := N' x; Score := Score x;
     FirstResponse := FirstResponse x; LastResponse := LastResponse x;
     LastCheck := t |}.

Definition set_Score (s : Z) (x : NodeJSON) : NodeJSON :=
  {| Seq := Seq x; N' := N' x; Score := s;
     FirstResponse := FirstResponse x; LastResponse := LastResponse x;
     LastCheck := LastCheck x |}.

Definition set_N (nn : Node) (x : NodeJSON) : NodeJSON :=
  {| Seq := Seq x; N' := Some nn; Score := Score x;
     FirstResponse := FirstResponse x; LastResponse := LastResponse x;
     LastCheck := LastCheck x |}.

Definition set_Seq (s : Z) (x : NodeJSON) : NodeJSON :=
  {| Seq := s; N' := N' x; Score := Score x;
     FirstResponse := FirstResponse x; LastResponse := LastResponse x;
     LastCheck := LastCheck x |}.

Definition set_FirstResponse (t : Time) (x : NodeJSON) : NodeJSON :=
  {| Seq := Seq x; N' := N' x; Score := Score x;
     FirstResponse := t; LastResponse := LastResponse x;
     LastCheck := LastCheck x |}.

Definition set_LastResponse (t : Time) (x : NodeJSON) : NodeJSON :=
  {| Seq := Seq x; N' := N' x; Score := Score x;
     FirstResponse := FirstResponse x; LastResponse := t;
     LastCheck := LastCheck x |}.

(** [p2p.NodeSet] *)
Abbreviation NodeSet := (gmap ID NodeJSON).

(** [node, ok := m[id]]: the entry and [true], or the zero value and
    [false]. *)
Definition mapIndex (m : NodeSet) (id : ID) : NodeJSON * bool :=
  match m !! id with
  | Some x => (x, true)
  | None => (zeroNodeJSON, false)
  end.

(** The fields of [crawler] that [updateNode] touches.  The resolver
    [disc], the clock and the network are part of the [World] below. *)
Record crawler : Type := mkCrawler {
  input : NodeSet;
  output : NodeSet;
  revalidateInterval : Duration
}.

Definition set_output (o : NodeSet) (c : crawler) : crawler :=
  {| input := input c; output := o;
     revalidateInterval := revalidateInterval c |}.

(** The [iota] constants. *)
Inductive status : Type :=
  | nodeRemoved
  | nodeSkipRecent
  | nodeSkipIncompat
  | nodeAdded
  | nodeUpdated.

Definition status_int (s : status) : Z :=
  match s with
  | nodeRemoved => 0
  | nodeSkipRecent => 1
  | nodeSkipIncompat => 2
  | nodeAdded => 3
  | nodeUpdated => 4
  end.

(** *** The outside world of one [updateNode] call *)

(** What [conn.Peer()] returns that [shouldSkipNode] reads: the network id
    of the status message. *)
Record PeerStatus : Type := mkPeerStatus { NetworkID : Z }.

(** A dialled connection, named by the node it leads to. *)
Record Conn : Type := mkConn { conn_node : Node }.

(** Network input and output, in the order it happens. *)
Inductive io_event : Type :=
  | IoDial (n : Node)
  | IoPeer (c : Conn)
  | IoClose (c : Conn)
  | IoRequestENR (n : Node).

(** Everything [updateNode] obtains from outside the crawler: the two
    clock readings ([time.Since] in the recency test, [time.Now] in
    [truncNow]), the results of [p2p.Dial] and [conn.Peer] ([None] for an
    error; both are declared elsewhere in the [p2p] package and do network
    I/O), and the answer of the resolver's [RequestENR]. *)
Record World : Type := mkWorld {
  now_since : Time;
  now_check : Time;
  Dial : Node -> option Conn;
  Peer : Conn -> option PeerStatus;
  RequestENR : Node -> option Node
}.

(** A computation that performs network I/O: its value and the events it
    caused. *)
Definition IO (A : Type) : Type := (A * list io_event)%type.

Definition io_ret {A} (a : A) : IO A := (a, []).

Definition io_bind {A B} (m : IO A) (k : A -> IO B) : IO B :=
  let '(a, t1) := m in
  let '(b, t2) := k a in
  (b, t1 ++ t2).

Definition io_do (e : io_event) : IO unit := (tt, [e]).

Notation "x <- m ;; k" := (io_bind m (fun x => k))
  (at level 100, m at next level, right associativity, only parsing).
Notation "e ;;; k" := (io_bind (io_do e) (fun _ => k))
  (at level 100, right associativity, only parsing).

Definition io_value {A} (m : IO A) : A := fst m.
Definition io_trace {A} (m : IO A) : list io_event := snd m.

(** [shouldSkipNode]; [networkID] is [inputCrawlParams.NetworkID]. *)
Definition shouldSkipNode (networkID : Z) (w : World) (n : Node) : IO bool :=
  if networkID =? 0 then io_ret false
  else
    IoDial n ;;;
    match Dial w n with
    | None => io_ret true
    | Some conn =>
        IoPeer conn ;;;
        let r :=
          match Peer w conn with
          | None => true
          | Some st => negb (networkID =? NetworkID st)
          end in
        (* the deferred conn.Close() *)
        IoClose conn ;;;
        io_ret r
    end.

(** [truncNow] *)
Definition truncNow (w : World) : Time := Truncate (now_check w) (1 * Second).

(** The [if nn, err := c.disc.RequestENR(n); err != nil { ... } else { ... }]
    statement of [updateNode]: either the early [return nodeSkipIncompat]
    ([inl]) or the locals [node] and [status] after it ([inr]). *)
Definition requestRecord (w : World) (n : Node) (node : NodeJSON)
  : IO (status + NodeJSON * status) :=
  IoRequestENR n ;;;
  match RequestENR w n with
  | None =>
      if Score node =? 0 then io_ret (inl nodeSkipIncompat)
      else io_ret (inr (set_Score (int_quo (Score node) 2) node, nodeUpdated))
  | Some nn =>
      let node := set_N nn node in
      let node := set_Seq (node_Seq nn) node in
      let node := set_Score (int_incr (Score node)) node in
      let '(node, st) :=
        if IsZero (FirstResponse node)
        then (set_FirstResponse (LastCheck node) node, nodeAdded)
        else (node, nodeUpdated) in
      let node := set_LastResponse (LastCheck node) node in
      io_ret (inr (node, st))
  end.

(** The last part of [updateNode], run under [c.mu.Lock()]. *)
Definition storeNode (c : crawler) (n : Node) (node : NodeJSON) (st : status)
  : status * crawler :=
  if Score node <=? 0
  then (nodeRemoved, set_output (delete (node_ID n) (output c)) c)
  else (st, set_output (<[node_ID n := node]> (output c)) c).

(** [updateNode] *)
Definition updateNode (networkID : Z) (w : World) (c : crawler) (n : Node)
  : IO (status * crawler) :=
  let '(node, ok) := mapIndex (output c) (node_ID n) in
  if ok && (Since (now_since w) (LastCheck node) <? revalidateInterval c)
  then io_ret (nodeSkipRecent, c)
  else
    skip <- shouldSkipNode networkID w n ;;
    if skip then io_ret (nodeSkipIncompat, c)
    else
      let node := set_LastCheck (truncNow w) node in
      r <- requestRecord w n node ;;
      match r with
      | inl early => io_ret (early, c)
      | inr (node, st) => io_ret (storeNode c n node st)
      end.

(** [newCrawler]: the output set starts as a copy of the input set, made
    entry by entry.  The caller sets [revalidateInterval] on the crawler it
    gets back; here the interval is given at once. *)
Definition newCrawler (inp : NodeSet) (interval : Duration) : crawler :=
  {| input := inp;
     output := map_fold (fun id n out => <[id := n]> out) ∅ inp;
     revalidateInterval := interval |}.

(** A run of the workers seen at the output set: [updateNode] calls one
    after another, each in its own world. *)
Fixpoint updateNodes (networkID : Z) (c : crawler) (calls : list (World * Node))
  : crawler :=
  match calls with
  | [] => c
  | (w, n) :: rest =>
      updateNodes networkID (snd (io_value (updateNode networkID w c n))) rest
  end.

End Crawl.

(** ** go-ethereum's [rlp] package, as far as [p2p] uses it

    [rlp.DecodeBytes(b, val)] runs the decoder of [val]'s type over the
    bytes [b] and fails unless it consumes all of them.  A decoder reads a
    value from the front of its input, which is the rest of the enclosing
    list (or of [b]), and returns what is left. *)

Module RLP.
Import Stdlib.Strings.Byte.
Local Open Scope N_scope.

Definition Decoder (T : Type) : Type := list byte -> option (T * list byte).

Definition byte_of_N (n : N) : byte :=
  match of_N n with
  | Some b => b
  | None => x00
  end.

(** The first [size] bytes and the rest; [None] when fewer are left
    ([ErrValueTooLarge], [ErrElemTooLarge], unexpected EOF). *)
Definition readFull (size : N) (bs : list byte) : option (list byte * list byte) :=
  if size <=? N.of_nat (length bs)
  then Some (take (N.to_nat size) bs, drop (N.to_nat size) bs)
  else None.

(** [binary.BigEndian]: the number a byte string stands for. *)
Fixpoint bigEndian (acc : N) (bs : list byte) : N :=
  match bs with
  | [] => acc
  | b :: rest => bigEndian (acc * 256 + to_N b) rest
  end.

(** [Stream.readUint(size)]: a big-endian number of [size] bytes; two or
    more bytes must not start with a zero byte. *)
Definition readUint (size : N) (bs : list byte) : option (N * list byte) :=
  if size =? 0 then Some (0, bs)
  else if size =? 1 then
    match bs with
    | b :: rest => Some (to_N b, rest)
    | [] => None
    end
  else
    '(buf, rest) ← readFull size bs;
    match buf with
    | b :: _ => if to_N b =? 0 then None else Some (bigEndian 0 buf, rest)
    | [] => None
    end.

(** What a value starts with: a single byte below 0x80 that is its own
    encoding, or the header of a string or of a list with the size of its
    content. *)
Inductive Kind : Type :=
  | Byte (b : byte)
  | String (size : N)
  | List (size : N).

Definition kindSize (k : Kind) : N :=
  match k with
  | Byte _ => 0
  | String size | List size => size
  end.

(** [Stream.readKind] *)
Definition readKind (bs : list byte) : option (Kind * list byte) :=
  match bs with
  | [] => None
  | b :: rest =>
      let v := to_N b in
      if v <? 0x80 then Some (Byte b, rest)
      else if v <? 0xB8 then Some (String (v - 0x80), rest)
      else if v <? 0xC0 then
        '(size, rest') ← readUint (v - 0xB7) rest;
        if size <? 56 then None else Some (String size, rest')
      else if v <? 0xF8 then Some (List (v - 0xC0), rest)
      else
        '(size, rest') ← readUint (v - 0xF7) rest;
        if size <? 56 then None else Some (List size, rest')
  end.

(** [Stream.Kind]: the next value's kind, refused when its content is
    longer than what is left of the input or of the enclosing list.  The
    empty input is the end of the list ([EOL]) or of the data. *)
Definition nextKind (bs : list byte) : option (Kind * list byte) :=
  '(k, rest) ← readKind bs;
  if kindSize k <=? N.of_nat (length rest) then Some (k, rest) else None.

(** [Stream.Bytes], the decoder of [[]byte] and [string]. *)
Definition decodeByteSlice : Decoder (list byte) := fun bs =>
  '(k, rest) ← nextKind bs;
  match k with
  | Byte b => Some ([b], rest)
  | String size =>
      '(b, rest') ← readFull size rest;
      match b with
      | [b0] => if to_N b0 <? 128 then None else Some (b, rest')
      | _ => Some (b, rest')
      end
  | List _ => None
  end.

(** [decodeByteArray] for an array of [len] bytes, such as [common.Hash]
    ([len = 32]). *)
Definition decodeByteArray (len : N) : Decoder (list byte) := fun bs =>
  '(k, rest) ← nextKind bs;
  match k with
  | Byte b => if len =? 1 then Some ([b], rest) else None
  | String size =>
      if negb (len =? size) then None
      else
        '(b, rest') ← readFull size rest;
        match b with
        | [b0] => if to_N b0 <? 128 then None else Some (b, rest')
        | _ => Some (b, rest')
        end
  | List _ => None
  end.

(** [Stream.uint(maxbits)], the decoder of the unsigned integer types. *)
Definition decodeUint (maxbits : N) : Decoder N := fun bs =>
  '(k, rest) ← nextKind bs;
  match k with
  | Byte b => if to_N b =? 0 then None else Some (to_N b, rest)
  | String size =>
      if maxbits / 8 <? size then None
      else
        '(v, rest') ← readUint size rest;
        if (0 <? size) && (v <? 128) then None else Some (v, rest')
  | List _ => None
  end.

(** [decodeSliceElems]: elements until the list is exhausted.  Every
    element takes at least one byte, so [fuel] the length of the content
    is enough. *)
Fixpoint decodeSliceElems {T} (fuel : nat) (elem : Decoder T) (content : list byte)
  : option (list T) :=
  match content with
  | [] => Some []
  | _ :: _ =>
      match fuel with
      | O => None
      | S fuel' =>
          '(x, rest) ← elem content;
          xs ← decodeSliceElems fuel' elem rest;
          Some (x :: xs)
      end
  end.

(** [Stream.List]: enter a list, giving its content and what follows it. *)
Definition enterList (bs : list byte) : option (list byte * list byte) :=
  '(k, rest) ← nextKind bs;
  match k with
  | List size => readFull size rest
  | _ => None
  end.

(** [decodeListSlice], the decoder of [[]T]. *)
Definition decodeListSlice {T} (elem : Decoder T) : Decoder (list T) := fun bs =>
  '(content, rest) ← enterList bs;
  xs ← decodeSliceElems (length content) elem content;
  Some (xs, rest).

(** The decoder of a struct: a list whose content is the fields in order,
    with nothing left over ([Stream.ListEnd]). *)
Definition decodeStruct {T} (fields : Decoder T) : Decoder T := fun bs =>
  '(content, rest) ← enterList bs;
  '(v, remaining) ← fields content;
  match remaining with
  | [] => Some (v, rest)
  | _ :: _ => None
  end.

(** [rlp.DecodeBytes] *)
Definition DecodeBytes {T} (dec : Decoder T) (b : list byte) : option T :=
  '(v, rest) ← dec b;
  match rest with
  | [] => Some v
  | _ :: _ => None
  end.

(** *** Encoding *)

(** [putint]: the big-endian form of a [uint64] without leading zero
    bytes, one byte for 0. *)
Fixpoint putintFrom (fuel : nat) (i : N) (acc : list byte) : list byte :=
  match fuel with
  | O => acc
  | S fuel' =>
      let acc' := byte_of_N (i mod 256) :: acc in
      if i / 256 =? 0 then acc' else putintFrom fuel' (i / 256) acc'
  end.

Definition putint (i : N) : list byte := putintFrom 8 i [].

(** [puthead]: the header of a string ([small = 0x80], [large = 0xB7]) or
    of a list ([0xC0], [0xF7]) of [size] bytes. *)
Definition puthead (small large size : N) : list byte :=
  if size <? 56 then [byte_of_N (small + size)]
  else
    let sizeBytes := putint size in
    byte_of_N (large + N.of_nat (length sizeBytes)) :: sizeBytes.

(** [Stream.Raw], the decoder of [rlp.RawValue]: the next value as it is
    encoded, with its header written anew. *)
Definition decodeRaw : Decoder (list byte) := fun bs =>
  '(k, rest) ← nextKind bs;
  match k with
  | Byte b => Some ([b], rest)
  | String size =>
      '(b, rest') ← readFull size rest;
      Some (puthead 0x80 0xB7 size ++ b, rest')
  | List size =>
      '(b, rest') ← readFull size rest;
      Some (puthead 0xC0 0xF7 size ++ b, rest')
  end.

(** [writeBytes], the encoding of [[]byte] and [string]. *)
Definition encodeBytes (b : list byte) : list byte :=
  match b with
  | [b0] =>
      if to_N b0 <=? 0x7F then [b0]
      else puthead 0x80 0xB7 1 ++ b
  | _ => puthead 0x80 0xB7 (N.of_nat (length b)) ++ b
  end.

(** [makeByteArrayWriter]: the encoding of a byte array of two or more bytes, such as a hash:
    a string header, then the bytes. *)
Definition encodeByteArray (b : list byte) : list byte :=
  puthead 0x80 0xB7 (N.of_nat (length b)) ++ b.

(** [writeUint] *)
Definition encodeUint (i : N) : list byte :=
  if i =? 0 then [x80]
  else if i <? 128 then [byte_of_N i]
  else
    let b := putint i in
    byte_of_N (0x80 + N.of_nat (length b)) :: b.

(** A list: the header for the size of the content, then the encoded
    elements. *)
Definition encodeList (elems : list (list byte)) : list byte :=
  let content := concat elems in
  puthead 0xC0 0xF7 (N.of_nat (length content)) ++ content.

End RLP.

(** ** The [p2p] package: message types, [Conn.Read], [Conn.ReadSnap] *)

Module P2P.
Import Stdlib.Strings.Byte.
Import Go RLP.
Local Open Scope Z_scope.

(** *** Types of go-ethereum that the messages are made of *)

Inductive ethPacket : Type :=
  | StatusPacket
  | NewBlockHashesPacket
  | TransactionsPacket
  | NewBlockPacket.

Inductive eth66Packet : Type :=
  | GetBlockHeadersPacket66
  | BlockHeadersPacket66
  | GetBlockBodiesPacket66
  | BlockBodiesPacket66
  | GetPooledTransactionsPacket66
  | PooledTransactionsPacket66.

Inductive snapPacket : Type :=
  | GetAccountRangePacket
  | AccountRangePacket
  | GetStorageRangesPacket
  | StorageRangesPacket
  | GetByteCodesPacket
  | ByteCodesPacket
  | GetTrieNodesPacket
  | TrieNodesPacket.

(** The packet types of go-ethereum's [p2p], [eth] and [snap] packages
    with their rlp decoders, and the request id fields that the [ReqID]
    methods read.  They are declared outside this repository and taken as
    given. *)
Class Packets : Type := {
  (** [p2p.DiscReason], and the decoder of [[]p2p.DiscReason] *)
  DiscReason : Type;
  decodeDiscReason : Decoder DiscReason;
  decodeDiscReasons : Decoder (list DiscReason);
  (** [p2p.Cap] *)
  Cap : Type;
  decodeCap : Decoder Cap;
  (** [eth.StatusPacket] and the other packets without a request id *)
  eth : ethPacket -> Type;
  decodeEth : forall t, Decoder (eth t);
  (** the [eth/66] packets, with their [RequestId] field *)
  eth66 : eth66Packet -> Type;
  RequestId : forall t, eth66 t -> Z;
  decodeEth66 : forall t, Decoder (eth66 t);
  (** the [snap/1] packets, with their [ID] field *)
  snap : snapPacket -> Type;
  ID : forall t, snap t -> Z;
  decodeSnap : forall t, Decoder (snap t)
}.

Arguments RequestId {_ _} _.
Arguments ID {_ _} _.

(** [common.Hash], 32 bytes. *)
Abbreviation Hash := (list byte).
Definition HashLength : N := 32.

Section Messages.
Context {P : Packets}.

(** The errors this file makes with [fmt.Errorf], by their format. *)
Inductive error : Type :=
  | errRead              (* "could not read from connection: %v" *)
  | errDecode            (* "could not rlp decode message: %v" *)
  | errInvalidCode (code : Z)               (* "invalid message code: %d" *)
  | errInvalidMessage (rawData : list byte) (* "invalid message: %s" *)
  | errTimedOut          (* "request timed out" *).

Record Error : Type := mkError { err : error }.

Definition Error_Code : Z := -1.
Definition Error_ReqID : Z := 0.

Record Hello : Type := mkHello {
  Version : N;
  Name : list byte;
  Caps : list Cap;
  ListenPort : N;
  Hello_ID : list byte;
  Rest : list (list byte)
}.

Definition Hello_Code : Z := 0x00.
Definition Hello_ReqID : Z := 0.

Record Disconnect : Type := mkDisconnect { Reason : DiscReason }.

Definition Disconnect_Code : Z := 0x01.
Definition Disconnect_ReqID : Z := 0.

Definition Disconnects : Type := list DiscReason.

Definition Disconnects_Code : Z := 0x01.
Definition Disconnects_ReqID : Z := 0.

Definition Ping_Code : Z := 0x02.
Definition Ping_ReqID : Z := 0.

Definition Pong_Code : Z := 0x03.
Definition Pong_ReqID : Z := 0.

Definition Status : Type := eth StatusPacket.

Definition Status_Code : Z := 16.
Definition Status_ReqID : Z := 0.

Definition NewBlockHashes : Type := eth NewBlockHashesPacket.

Definition NewBlockHashes_Code : Z := 17.
Definition NewBlockHashes_ReqID : Z := 0.

Definition Transactions : Type := eth TransactionsPacket.

Definition Transactions_Code : Z := 18.
Definition Transactions_ReqID : Z := 18.

Definition GetBlockHeaders : Type := eth66 GetBlockHeadersPacket66.

Definition GetBlockHeaders_Code : Z := 19.
Definition GetBlockHeaders_ReqID (msg : GetBlockHeaders) : Z := RequestId msg.

Definition BlockHeaders : Type := eth66 BlockHeadersPacket66.

Definition BlockHeaders_Code : Z := 20.
Definition BlockHeaders_ReqID (msg : BlockHeaders) : Z := RequestId msg.

Definition GetBlockBodies : Type := eth66 GetBlockBodiesPacket66.

Definition GetBlockBodies_Code : Z := 21.
Definition GetBlockBodies_ReqID (msg : GetBlockBodies) : Z := RequestId msg.

Definition BlockBodies : Type := eth66 BlockBodiesPacket66.

Definition BlockBodies_Code : Z := 22.
Definition BlockBodies_ReqID (msg : BlockBodies) : Z := RequestId msg.

Definition NewBlock : Type := eth NewBlockPacket.

Definition NewBlock_Code : Z := 23.
Definition NewBlock_ReqID : Z := 0.

Definition NewPooledTransactionHashes66 : Type := list Hash.

Definition NewPooledTransactionHashes66_Code : Z := 24.
Definition NewPooledTransactionHashes66_ReqID : Z := 0.

Record NewPooledTransactionHashes : Type := mkNewPooledTransactionHashes {
  Types : list byte;
  Sizes : list N;
  Hashes : list Hash
}.

Definition NewPooledTransactionHashes_Code : Z := 24.
Definition NewPooledTransactionHashes_ReqID : Z := 0.

Definition GetPooledTransactions : Type := eth66 GetPooledTransactionsPacket66.

Definition GetPooledTransactions_Code : Z := 25.
Definition GetPooledTransactions_ReqID (msg : GetPooledTransactions) : Z :=
  RequestId msg.

Definition PooledTransactions : Type := eth66 PooledTransactionsPacket66.

Definition PooledTransactions_Code : Z := 26.
Definition PooledTransactions_ReqID (msg : PooledTransactions) : Z :=
  RequestId msg.

Definition GetAccountRange : Type := snap GetAccountRangePacket.

Definition GetAccountRange_Code : Z := 33.
Definition GetAccountRange_ReqID (msg : GetAccountRange) : Z := ID msg.

Definition AccountRange : Type := snap AccountRangePacket.

Definition AccountRange_Code : Z := 34.
Definition AccountRange_ReqID (msg : AccountRange) : Z := ID msg.

Definition GetStorageRanges : Type := snap GetStorageRangesPacket.

Definition GetStorageRanges_Code : Z := 35.
Definition GetStorageRanges_ReqID (msg : GetStorageRanges) : Z := ID msg.

Definition StorageRanges : Type := snap StorageRangesPacket.

Definition StorageRanges_Code : Z := 36.
Definition StorageRanges_ReqID (msg : StorageRanges) : Z := ID msg.

Definition GetByteCodes : Type := snap GetByteCodesPacket.

Definition GetByteCodes_Code : Z := 37.
Definition GetByteCodes_ReqID (msg : GetByteCodes) : Z := ID msg.

Definition ByteCodes : Type := snap ByteCodesPacket.

Definition ByteCodes_Code : Z := 38.
Definition ByteCodes_ReqID (msg : ByteCodes) : Z := ID msg.

Definition GetTrieNodes : Type := snap GetTrieNodesPacket.

Definition GetTrieNodes_Code : Z := 39.
Definition GetTrieNodes_ReqID (msg : GetTrieNodes) : Z := ID msg.

Definition TrieNodes : Type := snap TrieNodesPacket.

Definition TrieNodes_Code : Z := 40.
Definition TrieNodes_ReqID (msg : TrieNodes) : Z := ID msg.

(** A value of the [Message] interface: one of the types above that
    implement it. *)
Inductive Message : Type :=
  | MsgError (msg : Error)
  | MsgHello (msg : Hello)
  | MsgDisconnect (msg : Disconnect)
  | MsgDisconnects (msg : Disconnects)
  | MsgPing
  | MsgPong
  | MsgStatus (msg : Status)
  | MsgNewBlockHashes (msg : NewBlockHashes)
  | MsgTransactions (msg : Transactions)
  | MsgGetBlockHeaders (msg : GetBlockHeaders)
  | MsgBlockHeaders (msg : BlockHeaders)
  | MsgGetBlockBodies (msg : GetBlockBodies)
  | MsgBlockBodies (msg : BlockBodies)
  | MsgNewBlock (msg : NewBlock)
  | MsgNewPooledTransactionHashes66 (msg : NewPooledTransactionHashes66)
  | MsgNewPooledTransactionHashes (msg : NewPooledTransactionHashes)
  | MsgGetPooledTransactions (msg : GetPooledTransactions)
  | MsgPooledTransactions (msg : PooledTransactions)
  | MsgGetAccountRange (msg : GetAccountRange)
  | MsgAccountRange (msg : AccountRange)
  | MsgGetStorageRanges (msg : GetStorageRanges)
  | MsgStorageRanges (msg : StorageRanges)
  | MsgGetByteCodes (msg : GetByteCodes)
  | MsgByteCodes (msg : ByteCodes)
  | MsgGetTrieNodes (msg : GetTrieNodes)
  | MsgTrieNodes (msg : TrieNodes).

(** [m.Code()] through the interface. *)
Definition Code (m : Message) : Z :=
  match m with
  | MsgError _ => Error_Code
  | MsgHello _ => Hello_Code
  | MsgDisconnect _ => Disconnect_Code
  | MsgDisconnects _ => Disconnects_Code
  | MsgPing => Ping_Code
  | MsgPong => Pong_Code
  | MsgStatus _ => Status_Code
  | MsgNewBlockHashes _ => NewBlockHashes_Code
  | MsgTransactions _ => Transactions_Code
  | MsgGetBlockHeaders _ => GetBlockHeaders_Code
  | MsgBlockHeaders _ => BlockHeaders_Code
  | MsgGetBlockBodies _ => GetBlockBodies_Code
  | MsgBlockBodies _ => BlockBodies_Code
  | MsgNewBlock _ => NewBlock_Code
  | MsgNewPooledTransactionHashes66 _ => NewPooledTransactionHashes66_Code
  | MsgNewPooledTransactionHashes _ => NewPooledTransactionHashes_Code
  | MsgGetPooledTransactions _ => GetPooledTransactions_Code
  | MsgPooledTransactions _ => PooledTransactions_Code
  | MsgGetAccountRange _ => GetAccountRange_Code
  | MsgAccountRange _ => AccountRange_Code
  | MsgGetStorageRanges _ => GetStorageRanges_Code
  | MsgStorageRanges _ => StorageRanges_Code
  | MsgGetByteCodes _ => GetByteCodes_Code
  | MsgByteCodes _ => ByteCodes_Code
  | MsgGetTrieNodes _ => GetTrieNodes_Code
  | MsgTrieNodes _ => TrieNodes_Code
  end.

(** [m.ReqID()] through the interface. *)
Definition ReqID (m : Message) : Z :=
  match m with
  | MsgError _ => Error_ReqID
  | MsgHello _ => Hello_ReqID
  | MsgDisconnect _ => Disconnect_ReqID
  | MsgDisconnects _ => Disconnects_ReqID
  | MsgPing => Ping_ReqID
  | MsgPong => Pong_ReqID
  | MsgStatus _ => Status_ReqID
  | MsgNewBlockHashes _ => NewBlockHashes_ReqID
  | MsgTransactions _ => Transactions_ReqID
  | MsgGetBlockHeaders msg => GetBlockHeaders_ReqID msg
  | MsgBlockHeaders msg => BlockHeaders_ReqID msg
  | MsgGetBlockBodies msg => GetBlockBodies_ReqID msg
  | MsgBlockBodies msg => BlockBodies_ReqID msg
  | MsgNewBlock _ => NewBlock_ReqID
  | MsgNewPooledTransactionHashes66 _ => NewPooledTransactionHashes66_ReqID
  | MsgNewPooledTransactionHashes _ => NewPooledTransactionHashes_ReqID
  | MsgGetPooledTransactions msg => GetPooledTransactions_ReqID msg
  | MsgPooledTransactions msg => PooledTransactions_ReqID msg
  | MsgGetAccountRange msg => GetAccountRange_ReqID msg
  | MsgAccountRange msg => AccountRange_ReqID msg
  | MsgGetStorageRanges msg => GetStorageRanges_ReqID msg
  | MsgStorageRanges msg => StorageRanges_ReqID msg
  | MsgGetByteCodes msg => GetByteCodes_ReqID msg
  | MsgByteCodes msg => ByteCodes_ReqID msg
  | MsgGetTrieNodes msg => GetTrieNodes_ReqID msg
  | MsgTrieNodes msg => TrieNodes_ReqID msg
  end.

(** [errorf] *)
Definition errorf (e : error) : Message := MsgError {| err := e |}.

(** *** The rlp decoders of the message types declared in this file *)

Definition decodeHello : Decoder Hello :=
  decodeStruct (fun bs =>
    '(version, bs) ← decodeUint 64 bs;
    '(name, bs) ← decodeByteSlice bs;
    '(caps, bs) ← decodeListSlice decodeCap bs;
    '(port, bs) ← decodeUint 64 bs;
    '(id, bs) ← decodeByteSlice bs;
    (* the tail field takes every element that is left *)
    rest ← decodeSliceElems (length bs) decodeRaw bs;
    Some (mkHello version name caps port id rest, [])).

Definition decodeDisconnect : Decoder Disconnect :=
  decodeStruct (fun bs =>
    '(reason, bs) ← decodeDiscReason bs;
    Some (mkDisconnect reason, bs)).

Definition decodeDisconnects : Decoder Disconnects := decodeDiscReasons.

(** A struct without exported fields ([Ping], [Pong], [Error]): the empty
    list. *)
Definition decodeEmptyStruct : Decoder unit :=
  decodeStruct (fun bs => Some (tt, bs)).

Definition decodeHash : Decoder Hash := decodeByteArray HashLength.

Definition decodeNewPooledTransactionHashes66
  : Decoder NewPooledTransactionHashes66 :=
  decodeListSlice decodeHash.

Definition decodeNewPooledTransactionHashes
  : Decoder NewPooledTransactionHashes :=
  decodeStruct (fun bs =>
    '(types, bs) ← decodeByteSlice bs;
    '(sizes, bs) ← decodeListSlice (decodeUint 32) bs;
    '(hashes, bs) ← decodeListSlice decodeHash bs;
    Some (mkNewPooledTransactionHashes types sizes hashes, bs)).

(** What [rlp.EncodeToBytes] makes of the two announcements of pooled
    transaction hashes, the data [Conn.Write] sends under their code. *)
Definition encodeNewPooledTransactionHashes66
    (msg : NewPooledTransactionHashes66) : list byte :=
  encodeList (map encodeByteArray msg).

Definition encodeNewPooledTransactionHashes
    (msg : NewPooledTransactionHashes) : list byte :=
  encodeList [encodeBytes (Types msg);
              encodeList (map encodeUint (Sizes msg));
              encodeList (map encodeByteArray (Hashes msg))].

(** *** The connection *)

(** What the embedded [rlpx.Conn]'s [Read] returns: an error, or the code
    and the data of the next frame. *)
Inductive readResult : Type :=
  | readError
  | readFrame (code : Z) (rawData : list byte).

(** Of a [Conn], the frames and read errors that its transport will
    deliver, in order. *)
Record Conn : Type := mkConn { incoming : list readResult }.

(** [c.Conn.Read()]: the next result, and the connection after it.  When
    nothing is left to deliver the call does not return ([None]). *)
Definition rlpxRead (c : Conn) : option (readResult * Conn) :=
  match incoming c with
  | [] => None
  | r :: rest => Some (r, mkConn rest)
  end.

(** [if err := rlp.DecodeBytes(rawData, msg); err != nil { return
    errorf(...) }; return msg] for a [msg] of the type that [dec]
    decodes. *)
Definition decodeInto {T} (dec : Decoder T) (wrap : T -> Message)
    (rawData : list byte) : Message :=
  match DecodeBytes dec rawData with
  | Some v => wrap v
  | None => errorf errDecode
  end.

(** The [switch] of [Conn.Read] and the statements after it, for a frame
    that was read.  No case leaves [msg] nil, so the last [return] of the
    function is never reached. *)
Definition readFrameMessage (code : Z) (rawData : list byte) : Message :=
  let c := int_of_uint64 code in
  if c =? Hello_Code then decodeInto decodeHello MsgHello rawData
  else if c =? Ping_Code then
    decodeInto decodeEmptyStruct (fun _ => MsgPing) rawData
  else if c =? Pong_Code then
    decodeInto decodeEmptyStruct (fun _ => MsgPong) rawData
  else if c =? Disconnect_Code then
    match DecodeBytes decodeDisconnects rawData with
    | Some _ => decodeInto decodeDisconnects MsgDisconnects rawData
    | None => decodeInto decodeDisconnect MsgDisconnect rawData
    end
  else if c =? Status_Code then
    decodeInto (decodeEth StatusPacket) MsgStatus rawData
  else if c =? GetBlockHeaders_Code then
    decodeInto (decodeEth66 GetBlockHeadersPacket66) MsgGetBlockHeaders rawData
  else if c =? BlockHeaders_Code then
    decodeInto (decodeEth66 BlockHeadersPacket66) MsgBlockHeaders rawData
  else if c =? GetBlockBodies_Code then
    decodeInto (decodeEth66 GetBlockBodiesPacket66) MsgGetBlockBodies rawData
  else if c =? BlockBodies_Code then
    decodeInto (decodeEth66 BlockBodiesPacket66) MsgBlockBodies rawData
  else if c =? NewBlock_Code then
    decodeInto (decodeEth NewBlockPacket) MsgNewBlock rawData
  else if c =? NewBlockHashes_Code then
    decodeInto (decodeEth NewBlockHashesPacket) MsgNewBlockHashes rawData
  else if c =? Transactions_Code then
    decodeInto (decodeEth TransactionsPacket) MsgTransactions rawData
  else if c =? NewPooledTransactionHashes66_Code then
    match DecodeBytes decodeNewPooledTransactionHashes rawData with
    | Some ethMsg => MsgNewPooledTransactionHashes ethMsg
    | None =>
        decodeInto decodeNewPooledTransactionHashes66
          MsgNewPooledTransactionHashes66 rawData
    end
  else if c =? GetPooledTransactions_Code then
    decodeInto (decodeEth66 GetPooledTransactionsPacket66)
      MsgGetPooledTransactions rawData
  else if c =? PooledTransactions_Code then
    decodeInto (decodeEth66 PooledTransactionsPacket66)
      MsgPooledTransactions rawData
  else
    (* msg = errorf("invalid message code: %d", code), then decoded into
       like the others: an [*Error] has no exported field *)
    decodeInto decodeEmptyStruct (fun _ => errorf (errInvalidCode code)) rawData.

(** [Conn.Read] *)
Definition Read (c : Conn) : option (Message * Conn) :=
  '(r, c') ← rlpxRead c;
  match r with
  | readError => Some (errorf errRead, c')
  | readFrame code rawData => Some (readFrameMessage code rawData, c')
  end.

(** The [switch] of [Conn.ReadSnap]: the decoder for [snpMsg], or [None]
    in the [default] case. *)
Definition snapDecoder (code : Z) : option (list byte -> option Message) :=
  let c := int_of_uint64 code in
  let dec (t : snapPacket) (wrap : snap t -> Message) :=
    Some (fun rawData => wrap <$> DecodeBytes (decodeSnap t) rawData) in
  if c =? GetAccountRange_Code then dec GetAccountRangePacket MsgGetAccountRange
  else if c =? AccountRange_Code then dec AccountRangePacket MsgAccountRange
  else if c =? GetStorageRanges_Code then
    dec GetStorageRangesPacket MsgGetStorageRanges
  else if c =? StorageRanges_Code then dec StorageRangesPacket MsgStorageRanges
  else if c =? GetByteCodes_Code then dec GetByteCodesPacket MsgGetByteCodes
  else if c =? ByteCodes_Code then dec ByteCodesPacket MsgByteCodes
  else if c =? GetTrieNodes_Code then dec GetTrieNodesPacket MsgGetTrieNodes
  else if c =? TrieNodes_Code then dec TrieNodesPacket MsgTrieNodes
  else None.

(** The [for] loop of [Conn.ReadSnap].  [clock k] is what [time.Now()]
    reads the [k]-th time it is called, [timeout] the package's timeout.
    The result is what the function returns, [inl msg] for [(msg, nil)] and
    [inr e] for [(nil, e)], with the connection as it is left; [None] when
    a read does not return. *)
Fixpoint readSnapLoop (timeout : Duration) (clock : nat -> Time) (start : Time)
    (id respId : Z) (k : nat) (pending : list readResult)
  : option ((Message + error) * Conn) :=
  if negb (respId =? id) && (Since (clock k) start <? timeout) then
    match pending with
    | [] => None
    | readError :: rest => Some (inr errRead, mkConn rest)
    | readFrame code rawData :: rest =>
        match snapDecoder code with
        | None => readSnapLoop timeout clock start id respId (S k) rest
        | Some dec =>
            match dec rawData with
            | None => Some (inr errDecode, mkConn rest)
            | Some msg => Some (inl msg, mkConn rest)
            end
        end
    end
  else Some (inr errTimedOut, mkConn pending).

(** [Conn.ReadSnap] *)
Definition ReadSnap (timeout : Duration) (clock : nat -> Time) (c : Conn) (id : Z)
  : option ((Message + error) * Conn) :=
  let respId := wrap_uint64 (id + 1) in
  let start := clock O in
  readSnapLoop timeout clock start id respId 1 (incoming c).

End Messages.
End P2P.

(** ** [run]: the workers' counters and the control loop *)

Module CrawlRun.
Import Go Crawl.
Local Open Scope Z_scope.

(** The counters of [run], each a [uint64]. *)
Record counters : Type := mkCounters {
  added : Z;
  updated : Z;
  skipped : Z;
  recent : Z;
  removed : Z
}.

(** The counters as declared, all zero. *)
Definition noCounts : counters := mkCounters 0 0 0 0 0.

(** [atomic.AddUint64(&x, 1)] *)
Definition AddUint64 (x delta : Z) : Z := wrap_uint64 (x + delta).

(** The [switch c.updateNode(n)] of a worker; [nodeUpdated] is its
    [default] case. *)
Definition count (st : status) (k : counters) : counters :=
  match st with
  | nodeSkipIncompat =>
      mkCounters (added k) (updated k) (AddUint64 (skipped k) 1) (recent k) (removed k)
  | nodeSkipRecent =>
      mkCounters (added k) (updated k) (skipped k) (AddUint64 (recent k) 1) (removed k)
  | nodeRemoved =>
      mkCounters (added k) (updated k) (skipped k) (recent k) (AddUint64 (removed k) 1)
  | nodeAdded =>
      mkCounters (AddUint64 (added k) 1) (updated k) (skipped k) (recent k) (removed k)
  | nodeUpdated =>
      mkCounters (added k) (AddUint64 (updated k) 1) (skipped k) (recent k) (removed k)
  end.

(** A worker goroutine on its own ([nthreads] 1): the nodes it receives
    from [c.ch], in order, each with the world its [updateNode] call
    meets, until [c.closed]. *)
Fixpoint worker (networkID : Z) (c : crawler) (k : counters)
    (received : list (World * Node)) : crawler * counters :=
  match received with
  | [] => (c, k)
  | (w, n) :: rest =>
      let '(st, c') := io_value (updateNode networkID w c n) in
      worker networkID c' (count st k) rest
  end.

(** What one [select] of the control loop receives: an iterator (named by
    its index in [c.iters]) from [doneCh], the timer's tick from
    [timeoutCh], or a tick of the status ticker. *)
Inductive received : Type :=
  | fromDoneCh (it : nat)
  | fromTimeoutCh
  | fromStatusTicker.

(** The variables of the control loop: [liveIters], and whether
    [timeoutCh] has been set to the timer's channel ([false]: it is
    nil). *)
Record control : Type := mkControl { liveIters : Z; timeoutCh : bool }.

(** One round of the loop for what the [select] received: the variables
    after it, and whether the round ends in [break loop].  A nil channel
    delivers nothing, so [fromTimeoutCh] cannot be received while
    [timeoutCh] is nil ([None]). *)
Definition selectOnce (timeout : Duration) (inputIter : nat) (s : control)
    (r : received) : option (control * bool) :=
  match r with
  | fromDoneCh it =>
      let ch :=
        if (it =? inputIter)%nat
        then (if 0 <? timeout then true else timeoutCh s)
        else timeoutCh s in
      let live := wrap_int64 (liveIters s - 1) in
      Some (mkControl live ch, live =? 0)
  | fromTimeoutCh => if timeoutCh s then Some (s, true) else None
  | fromStatusTicker => Some (s, false)
  end.

(** The control loop over what its [select]s receive, one after another:
    the variables when the loop is left and the events not consumed by
    then; [None] when the loop is not left on these events. *)
Fixpoint controlLoop (timeout : Duration) (inputIter : nat) (s : control)
    (rs : list received) : option (control * list received) :=
  match rs with
  | [] => None
  | r :: rest =>
      match selectOnce timeout inputIter s r with
      | None => None
      | Some (s', true) => Some (s', rest)
      | Some (s', false) => controlLoop timeout inputIter s' rest
      end
  end.

(** [for ; liveIters > 0; liveIters-- { <-doneCh }]: how many iterators
    are still received from [doneCh] after the loop. *)
Definition drained (s : control) : nat := Z.to_nat (liveIters s).

End CrawlRun.

(** ** [Conn.Write] *)

Module P2PWrite.
Import Stdlib.Strings.Byte.
Import Go RLP P2P.
Local Open Scope Z_scope.

(** The rlp encoders of go-ethereum's packet types, taken as given like
    their decoders; [None] is an encoding error. *)
Class PacketEncoders {P : Packets} : Type := {
  encodeDiscReason : DiscReason -> option (list byte);
  encodeDiscReasons : list DiscReason -> option (list byte);
  encodeCap : Cap -> option (list byte);
  encodeEth : forall t, eth t -> option (list byte);
  encodeEth66 : forall t, eth66 t -> option (list byte);
  encodeSnap : forall t, snap t -> option (list byte)
}.

Section Write.
Context {P : Packets} {E : PacketEncoders}.

(** [rlp.EncodeToBytes(msg)] for a message of this package.  A struct is
    the list of its exported fields; the [tail] field of [Hello] adds its
    raw values as further elements. *)
Definition EncodeToBytes (msg : Message) : option (list byte) :=
  match msg with
  | MsgError _ => Some (encodeList [])
  | MsgHello h =>
      caps ← mapM encodeCap (Caps h);
      Some (encodeList ([encodeUint (Version h); encodeBytes (Name h);
                         encodeList caps; encodeUint (ListenPort h);
                         encodeBytes (Hello_ID h)] ++ Rest h))
  | MsgDisconnect d =>
      reason ← encodeDiscReason (Reason d);
      Some (encodeList [reason])
  | MsgDisconnects ds => encodeDiscReasons ds
  | MsgPing => Some (encodeList [])
  | MsgPong => Some (encodeList [])
  | MsgStatus m => encodeEth StatusPacket m
  | MsgNewBlockHashes m => encodeEth NewBlockHashesPacket m
  | MsgTransactions m => encodeEth TransactionsPacket m
  | MsgGetBlockHeaders m => encodeEth66 GetBlockHeadersPacket66 m
  | MsgBlockHeaders m => encodeEth66 BlockHeadersPacket66 m
  | MsgGetBlockBodies m => encodeEth66 GetBlockBodiesPacket66 m
  | MsgBlockBodies m => encodeEth66 BlockBodiesPacket66 m
  | MsgNewBlock m => encodeEth NewBlockPacket m
  | MsgNewPooledTransactionHashes66 m =>
      Some (encodeNewPooledTransactionHashes66 m)
  | MsgNewPooledTransactionHashes m =>
      Some (encodeNewPooledTransactionHashes m)
  | MsgGetPooledTransactions m => encodeEth66 GetPooledTransactionsPacket66 m
  | MsgPooledTransactions m => encodeEth66 PooledTransactionsPacket66 m
  | MsgGetAccountRange m => encodeSnap GetAccountRangePacket m
  | MsgAccountRange m => encodeSnap AccountRangePacket m
  | MsgGetStorageRanges m => encodeSnap GetStorageRangesPacket m
  | MsgStorageRanges m => encodeSnap StorageRangesPacket m
  | MsgGetByteCodes m => encodeSnap GetByteCodesPacket m
  | MsgByteCodes m => encodeSnap ByteCodesPacket m
  | MsgGetTrieNodes m => encodeSnap GetTrieNodesPacket m
  | MsgTrieNodes m => encodeSnap TrieNodesPacket m
  end.

(** [Conn.Write]: the code and the payload handed to the transport's
    [Write], whose own error is returned as it is; [None] when the
    encoding fails and nothing is written. *)
Definition Write (msg : Message) : option (Z * list byte) :=
  payload ← EncodeToBytes msg;
  Some (wrap_uint64 (Code msg), payload).

End Write.
End P2PWrite.

(** ** cmd/mnemonic.go *)

Module Mnemonic.
Local Open Scope Z_scope.

(** The errors of [PreRunE], by their message. *)
Inductive wordsError : Type :=
  | tooFewWords (given : Z)     (* "... must be 12 or more. Given: %d" *)
  | tooManyWords (given : Z)    (* "... must be 24 or less. Given: %d" *)
  | notMultipleOf3              (* "... must be a multiple of 3" *).

(** [mnemonicCmd.PreRunE] for the value of the [words] flag; [None] is
    the nil error.  [%] is Go's remainder, which takes the sign of the
    dividend. *)
Definition PreRunE (inputWords : Z) : option wordsError :=
  if inputWords <? 12 then Some (tooFewWords inputWords)
  else if 24 <? inputWords then Some (tooManyWords inputWords)
  else if negb (Z.rem inputWords 3 =? 0) then Some notMultipleOf3
  else None.

(** The default of the [words] flag. *)
Definition defaultWords : Z := 24.

End Mnemonic.

(** * Properties *)

Module CrawlSpec.
Import Go Crawl.
Local Open Scope Z_scope.

(** The node record [updateNode] starts from: the entry of the output set,
    or the zero value for a node that is not in it. *)
Definition prior (c : crawler) (n : Node) : NodeJSON :=
  fst (mapIndex (output c) (node_ID n)).

(** The recency test of [updateNode] did not skip the node. *)
Definition checkDue (w : World) (c : crawler) (n : Node) : Prop :=
  forall node, output c !! node_ID n = Some node ->
    revalidateInterval c <= Since (now_since w) (LastCheck node).

(** [shouldSkipNode] let the node pass. *)
Definition compatible (networkID : Z) (w : World) (n : Node) : Prop :=
  io_value (shouldSkipNode networkID w n) = false.

Definition positiveScores (m : NodeSet) : Prop :=
  map_Forall (fun _ x => 0 < Score x) m.

(** A world for the examples: the clock reads [now], every dial and
    handshake succeeds on network 137, and the resolver answers [enr]. *)
Definition sampleWorld (now : Time) (enr : option Node) : World :=
  {| now_since := now; now_check := now;
     Dial := fun n => Some (mkConn n);
     Peer := fun _ => Some (mkPeerStatus 137);
     RequestENR := fun _ => enr |}.

Definition sampleRecord (score : Z) (first lastCheck : Time) : NodeJSON :=
  {| Seq := 1; N' := Some (mkNode 7%N 1); Score := score;
     FirstResponse := first; LastResponse := first; LastCheck := lastCheck |}.

Definition sampleCrawler (x : NodeJSON) : crawler :=
  newCrawler {[ 7%N := x ]} (30 * Second).

(** The part of [updateNode] before [c.mu.Lock()]: the lookup under the
    read lock, the two skips and the record request.  It ends in a status
    to return at once ([inl]) or in the record and status to store
    ([inr]). *)
Definition examineNode (networkID : Z) (w : World) (c : crawler) (n : Node)
  : IO (status + NodeJSON * status) :=
  let '(node, ok) := mapIndex (output c) (node_ID n) in
  if ok && (Since (now_since w) (LastCheck node) <? revalidateInterval c)
  then io_ret (inl nodeSkipRecent)
  else
    skip <- shouldSkipNode networkID w n ;;
    if skip then io_ret (inl nodeSkipIncompat)
    else requestRecord w n (set_LastCheck (truncNow w) node).

(** Workers that run [updateNode] at the same time.  A worker examines a
    node against the output set as it is at that moment, and stores its
    result later, under the lock, into the output set as it is then;
    other workers may act in between. *)
Inductive action : Type :=
  | Examine (worker : nat) (w : World) (n : Node)
  | Store (worker : nat).

Record pool : Type := mkPool {
  shared : crawler;
  pending : gmap nat (Node * NodeJSON * status)
}.

Definition act (networkID : Z) (p : pool) (a : action) : pool :=
  match a with
  | Examine k w n =>
      match pending p !! k with
      | Some _ => p
      | None =>
          match io_value (examineNode networkID w (shared p) n) with
          | inl _ => p
          | inr (node, st) => mkPool (shared p) (<[k := (n, node, st)]> (pending p))
          end
      end
  | Store k =>
      match pending p !! k with
      | None => p
      | Some (n, node, st) =>
          mkPool (snd (storeNode (shared p) n node st)) (delete k (pending p))
      end
  end.

Definition schedule (networkID : Z) (p : pool) (actions : list action) : pool :=
  foldl (act networkID) p actions.

Lemma io_value_bind {A B} (m : IO A) (k : A -> IO B) :
  io_value (io_bind m k) = io_value (k (io_value m)).
Proof.
  unfold io_value, io_bind. destruct m as [a t1]. simpl.
  destruct (k a) as [b t2]. reflexivity.
Qed.

Lemma io_value_ret {A} (a : A) : io_value (io_ret a) = a.
Proof. reflexivity. Qed.

Lemma prior_lookup c n x :
  output c !! node_ID n = Some x -> prior c n = x.
Proof. unfold prior, mapIndex. intros ->. reflexivity. Qed.

Lemma prior_missing c n :
  output c !! node_ID n = None -> prior c n = zeroNodeJSON.
Proof. unfold prior, mapIndex. intros ->. reflexivity. Qed.

(** Past the two skips, [updateNode] is the record request followed by
    the store. *)
Lemma updateNode_checked networkID w c n :
  checkDue w c n -> compatible networkID w n ->
  io_value (updateNode networkID w c n) =
  match io_value (requestRecord w n (set_LastCheck (truncNow w) (prior c n))) with
  | inl early => (early, c)
  | inr (node, st) => storeNode c n node st
  end.
Proof.
  intros Hdue Hcompat. unfold updateNode, prior, mapIndex.
  destruct (output c !! node_ID n) as [x|] eqn:Hx; simpl.
  - pose proof (Hdue x Hx) as Hlate.
    destruct (Z.ltb_spec (Since (now_since w) (LastCheck x)) (revalidateInterval c));
      [lia|]. simpl.
    rewrite io_value_bind, Hcompat, io_value_bind.
    destruct (io_value (requestRecord _ _ _)) as [e|[nd st]]; reflexivity.
  - rewrite io_value_bind, Hcompat, io_value_bind.
    destruct (io_value (requestRecord _ _ _)) as [e|[nd st]]; reflexivity.
Qed.

Lemma wrap_int64_small z : min_int64 <= z <= max_int64 -> wrap_int64 z = z.
Proof.
  unfold wrap_int64, min_int64, max_int64. intros H.
  rewrite Z.mod_small; lia.
Qed.

Lemma requestRecord_failure w n node :
  RequestENR w n = None ->
  io_value (requestRecord w n node) =
  if Score node =? 0 then inl nodeSkipIncompat
  else inr (set_Score (int_quo (Score node) 2) node, nodeUpdated).
Proof.
  intros Herr. unfold requestRecord. rewrite io_value_bind, Herr.
  destruct (Score node =? 0); reflexivity.
Qed.

Lemma requestRecord_success w n node nn :
  RequestENR w n = Some nn ->
  io_value (requestRecord w n node) =
  inr ({| Seq := node_Seq nn; N' := Some nn;
          Score := int_incr (Score node);
          FirstResponse :=
            if IsZero (FirstResponse node) then LastCheck node
            else FirstResponse node;
          LastResponse := LastCheck node;
          LastCheck := LastCheck node |},
       if IsZero (FirstResponse node) then nodeAdded else nodeUpdated).
Proof.
  intros Hok. unfold requestRecord. rewrite io_value_bind, Hok. simpl.
  destruct (IsZero (FirstResponse node)); reflexivity.
Qed.

(** C3: a node that is in the output set and whose last check is less than
    the revalidation interval ago is skipped: [updateNode] returns
    [nodeSkipRecent], causes no network event (no dial, no handshake, no
    resolver query) and hands back the crawler, hence the output set, as it
    was. *)
Theorem updateNode_skip_recent networkID w c n node :
  output c !! node_ID n = Some node ->
  Since (now_since w) (LastCheck node) < revalidateInterval c ->
  io_value (updateNode networkID w c n) = (nodeSkipRecent, c) /\
  io_trace (updateNode networkID w c n) = [].
Proof.
  intros Hin Hrecent. unfold updateNode, mapIndex. rewrite Hin.
  destruct (Z.ltb_spec (Since (now_since w) (LastCheck node))
              (revalidateInterval c)); [|lia].
  split; reflexivity.
Qed.

Lemma updateNode_skip_recent_witness :
  let c := sampleCrawler (sampleRecord 3 (900 * Second) (990 * Second)) in
  let w := sampleWorld (1000 * Second) (Some (mkNode 7%N 2)) in
  io_value (updateNode 137 w c (mkNode 7%N 1)) = (nodeSkipRecent, c) /\
  io_trace (updateNode 137 w c (mkNode 7%N 1)) = [].
Proof.
  intros c w.
  apply (updateNode_skip_recent 137 w c (mkNode 7%N 1)
           (sampleRecord 3 (900 * Second) (990 * Second))).
  - vm_compute. reflexivity.
  - vm_compute. reflexivity.
Defined.

(** C2: the resolver query fails for a node that passed the recency and
    compatibility checks.  With prior score 0 the result is
    [nodeSkipIncompat] and the crawler is unchanged.  With prior score
    [s > 0] the new score is [s / 2] (rounded down); if that is [<= 0] the
    entry is deleted and the result is [nodeRemoved], otherwise the record
    with the halved score (and the new last-check time) is stored and the
    result is [nodeUpdated], the status set before the query. *)
Theorem updateNode_resolver_failure networkID w c n :
  checkDue w c n -> compatible networkID w n ->
  RequestENR w n = None ->
  let r := io_value (updateNode networkID w c n) in
  let s := Score (prior c n) in
  (s = 0 -> r = (nodeSkipIncompat, c)) /\
  (0 < s ->
   (s / 2 <= 0 ->
    r = (nodeRemoved, set_output (delete (node_ID n) (output c)) c)) /\
   (0 < s / 2 ->
    r = (nodeUpdated,
         set_output
           (<[node_ID n :=
                set_Score (s / 2) (set_LastCheck (truncNow w) (prior c n))]>
              (output c)) c))).
Proof.
  intros Hdue Hcompat Herr r s. subst r.
  rewrite (updateNode_checked _ _ _ _ Hdue Hcompat).
  rewrite (requestRecord_failure _ _ _ Herr). simpl. fold s.
  split.
  - intros ->. reflexivity.
  - intros Hpos. destruct (Z.eqb_spec s 0); [lia|].
    unfold storeNode, int_quo. simpl.
    rewrite Z.quot_div_nonneg by lia.
    split; intros Hhalf.
    + destruct (Z.leb_spec (s / 2) 0); [reflexivity | lia].
    + destruct (Z.leb_spec (s / 2) 0); [lia | reflexivity].
Qed.

Lemma updateNode_resolver_failure_witness :
  let c := sampleCrawler (sampleRecord 1 (900 * Second) (100 * Second)) in
  let w := sampleWorld (1000 * Second) None in
  io_value (updateNode 137 w c (mkNode 7%N 1)) =
  (nodeRemoved, set_output (delete 7%N (output c)) c).
Proof.
  intros c w.
  refine (proj1 (proj2 (updateNode_resolver_failure 137 w c (mkNode 7%N 1)
                          _ _ _) _) _).
  - intros node Hnode. vm_compute in Hnode. injection Hnode as <-.
    vm_compute. discriminate.
  - reflexivity.
  - reflexivity.
  - vm_compute. reflexivity.
  - vm_compute. discriminate.
Defined.

(** C1, as stated, fails: a record with score -1 (the output set is a copy
    of the input set, whatever scores that holds) passes both checks, the
    resolver answers, the score becomes 0, and [updateNode] deletes the
    entry and returns [nodeRemoved]: no record is stored. *)
Lemma updateNode_success_not_stored :
  let c := sampleCrawler (sampleRecord (-1) (900 * Second) (100 * Second)) in
  let w := sampleWorld (1000 * Second) (Some (mkNode 7%N 2)) in
  let n := mkNode 7%N 1 in
  checkDue w c n /\ compatible 137 w n /\
  RequestENR w n = Some (mkNode 7%N 2) /\
  fst (io_value (updateNode 137 w c n)) = nodeRemoved /\
  output (snd (io_value (updateNode 137 w c n))) !! node_ID n = None.
Proof.
  intros c w n. repeat split.
  - intros node Hnode. vm_compute in Hnode. injection Hnode as <-.
    vm_compute. discriminate.
Qed.

(** C1, amended: the resolver query succeeds for a node that passed the
    recency and compatibility checks, and the prior score [s] satisfies
    [0 <= s < max_int64], so that [s + 1] is a positive [int].  Then
    [updateNode] stores under the node's identity a record with score
    [s + 1], the fresher record and its sequence number, and last-check and
    last-response equal to the check time truncated to the second.  If the
    prior first-response time was unset the result is [nodeAdded] and
    first-response is that same time; otherwise the result is
    [nodeUpdated] and first-response is kept. *)
Theorem updateNode_resolver_success networkID w c n nn :
  checkDue w c n -> compatible networkID w n ->
  RequestENR w n = Some nn ->
  0 <= Score (prior c n) < max_int64 ->
  exists rec st,
    io_value (updateNode networkID w c n) =
      (st, set_output (<[node_ID n := rec]> (output c)) c) /\
    Score rec = Score (prior c n) + 1 /\
    Seq rec = node_Seq nn /\ N' rec = Some nn /\
    LastCheck rec = now_check w - now_check w mod 1000000000 /\
    LastResponse rec = now_check w - now_check w mod 1000000000 /\
    (IsZero (FirstResponse (prior c n)) = true ->
     st = nodeAdded /\
     FirstResponse rec = now_check w - now_check w mod 1000000000) /\
    (IsZero (FirstResponse (prior c n)) = false ->
     st = nodeUpdated /\ FirstResponse rec = FirstResponse (prior c n)).
Proof.
  intros Hdue Hcompat Hok Hscore.
  rewrite (updateNode_checked _ _ _ _ Hdue Hcompat).
  rewrite (requestRecord_success _ _ _ _ Hok). simpl.
  assert (Hincr : int_incr (Score (prior c n)) = Score (prior c n) + 1).
  { unfold int_incr. apply wrap_int64_small.
    unfold min_int64, max_int64 in *. lia. }
  unfold storeNode. simpl. rewrite Hincr.
  destruct (Z.leb_spec (Score (prior c n) + 1) 0); [lia|].
  eexists _, _. split; [reflexivity|]. simpl.
  repeat split; try assumption; try reflexivity;
    destruct (IsZero (FirstResponse (prior c n))); try discriminate;
    reflexivity.
Qed.

Lemma updateNode_resolver_success_witness :
  let c := sampleCrawler (sampleRecord 3 0 (100 * Second)) in
  let w := sampleWorld (1000 * Second + 5) (Some (mkNode 7%N 2)) in
  exists rec,
    io_value (updateNode 137 w c (mkNode 7%N 1)) =
      (nodeAdded, set_output (<[7%N := rec]> (output c)) c) /\
    Score rec = 4 /\ Seq rec = 2 /\ LastResponse rec = 1000 * Second.
Proof.
  intros c w.
  destruct (updateNode_resolver_success 137 w c (mkNode 7%N 1) (mkNode 7%N 2))
    as (rec & st & Hval & Hscore & Hseq & _ & _ & Hlast & Hadded & _).
  - intros node Hnode. vm_compute in Hnode. injection Hnode as <-.
    vm_compute. discriminate.
  - reflexivity.
  - reflexivity.
  - vm_compute. split; [discriminate | reflexivity].
  - exists rec. destruct (Hadded eq_refl) as [-> _].
    repeat split; assumption.
Defined.

(** The output set of a new crawler is the input set. *)
Lemma newCrawler_output inp interval : output (newCrawler inp interval) = inp.
Proof.
  unfold newCrawler. simpl.
  apply (map_fold_weak_ind (fun out m => out = m)).
  - reflexivity.
  - intros i x m r _ ->. reflexivity.
Qed.

(** Whatever [storeNode] does keeps the scores of the set positive. *)
Lemma storeNode_positive c n node st :
  positiveScores (output c) ->
  positiveScores (output (snd (storeNode c n node st))).
Proof.
  intros Hpos. unfold storeNode.
  destruct (Z.leb_spec (Score node) 0); simpl.
  - apply map_Forall_delete, Hpos.
  - apply map_Forall_insert_2; assumption.
Qed.

(** Every entry of the output set after [updateNode] was there before or
    has a positive score. *)
Lemma updateNode_writes_positive networkID w c n id x :
  output (snd (io_value (updateNode networkID w c n))) !! id = Some x ->
  output c !! id = Some x \/ 0 < Score x.
Proof.
  unfold updateNode.
  destruct (mapIndex (output c) (node_ID n)) as [node ok].
  destruct (ok && _); [simpl; auto|].
  rewrite io_value_bind.
  destruct (io_value (shouldSkipNode networkID w n)); [simpl; auto|].
  rewrite io_value_bind.
  destruct (io_value (requestRecord _ _ _)) as [e|[nd st]]; [simpl; auto|].
  rewrite io_value_ret. unfold storeNode.
  destruct (Z.leb_spec (Score nd) 0); simpl.
  - rewrite lookup_delete_Some. intros [_ Hold]. auto.
  - rewrite lookup_insert_Some. intros [[_ <-]|[_ Hold]]; auto.
Qed.

Lemma updateNode_positive networkID w c n :
  positiveScores (output c) ->
  positiveScores (output (snd (io_value (updateNode networkID w c n)))).
Proof.
  intros Hpos id x Hx.
  destruct (updateNode_writes_positive _ _ _ _ _ _ Hx) as [Hold|Hnew].
  - exact (Hpos id x Hold).
  - exact Hnew.
Qed.

(** C4, as stated, fails: the copy of the input set keeps an entry with
    score 0, and an [updateNode] call that skips it as recently checked
    leaves it in the output set. *)
Lemma updateNodes_zero_score_kept :
  let inp : NodeSet := {[ 7%N := sampleRecord 0 0 (990 * Second) ]} in
  let calls := [(sampleWorld (1000 * Second) None, mkNode 7%N 1)] in
  let out := output (updateNodes 137 (newCrawler inp (30 * Second)) calls) in
  out !! 7%N = Some (sampleRecord 0 0 (990 * Second)) /\
  ~ positiveScores out.
Proof.
  intros inp calls out.
  assert (Hout : out !! 7%N = Some (sampleRecord 0 0 (990 * Second)))
    by (vm_compute; reflexivity).
  split; [exact Hout|].
  intros Hpos. specialize (Hpos _ _ Hout). simpl in Hpos. lia.
Qed.

(** C4, amended: if every record of the input set has a positive score,
    then after any sequence of [updateNode] calls on the crawler made
    from it every record of the output set has a positive score. *)
Theorem updateNodes_positive_scores networkID inp interval calls :
  positiveScores inp ->
  positiveScores
    (output (updateNodes networkID (newCrawler inp interval) calls)).
Proof.
  intros Hinp.
  assert (Hstart : positiveScores (output (newCrawler inp interval)))
    by (rewrite newCrawler_output; exact Hinp).
  generalize dependent (newCrawler inp interval).
  induction calls as [|[w n] rest IH]; intros c Hc; simpl.
  - exact Hc.
  - apply IH, updateNode_positive, Hc.
Qed.

Lemma updateNodes_positive_scores_witness :
  positiveScores
    (output (updateNodes 137
               (newCrawler {[ 7%N := sampleRecord 1 0 (100 * Second) ]}
                  (30 * Second))
               [(sampleWorld (1000 * Second) (Some (mkNode 7%N 2)), mkNode 7%N 1);
                (sampleWorld (2000 * Second) None, mkNode 7%N 2);
                (sampleWorld (3000 * Second) None, mkNode 8%N 1)])).
Proof.
  apply updateNodes_positive_scores.
  apply map_Forall_singleton. vm_compute. reflexivity.
Defined.

(** *** Further properties of the crawler *)

(** [updateNode] is the examination followed by the store. *)
Lemma updateNode_examine_store networkID w c n :
  io_value (updateNode networkID w c n) =
  match io_value (examineNode networkID w c n) with
  | inl st => (st, c)
  | inr (node, st) => storeNode c n node st
  end.
Proof.
  unfold updateNode, examineNode.
  destruct (mapIndex (output c) (node_ID n)) as [node ok].
  destruct (ok && _); [reflexivity|].
  rewrite !io_value_bind.
  destruct (io_value (shouldSkipNode networkID w n)); [reflexivity|].
  rewrite io_value_bind.
  destruct (io_value (requestRecord _ _ _)) as [e|[nd st]]; reflexivity.
Qed.

(** With no network id configured nothing is filtered, and no connection
    is made. *)
Theorem shouldSkipNode_no_filter w n :
  shouldSkipNode 0 w n = io_ret false.
Proof. reflexivity. Qed.

(** A node that [shouldSkipNode] filters out is reported as
    [nodeSkipIncompat], the resolver is not asked, and the crawler is
    unchanged. *)
Theorem updateNode_skip_incompatible networkID w c n :
  checkDue w c n ->
  io_value (shouldSkipNode networkID w n) = true ->
  io_value (updateNode networkID w c n) = (nodeSkipIncompat, c) /\
  io_trace (updateNode networkID w c n) =
    io_trace (shouldSkipNode networkID w n).
Proof.
  intros Hdue Hskip. unfold updateNode, mapIndex.
  assert (Hnot : forall x, output c !! node_ID n = Some x ->
            (Since (now_since w) (LastCheck x) <? revalidateInterval c) = false).
  { intros x Hx. apply Z.ltb_ge. exact (Hdue x Hx). }
  unfold io_value, io_trace in *.
  destruct (output c !! node_ID n) as [x|]; simpl;
    rewrite ?(Hnot x eq_refl); simpl;
    unfold io_bind; destruct (shouldSkipNode networkID w n) as [b t];
    simpl in *; subst b; simpl; rewrite app_nil_r; split; reflexivity.
Qed.

Lemma updateNode_skip_incompatible_witness :
  let c := sampleCrawler (sampleRecord 3 (900 * Second) (100 * Second)) in
  let w := sampleWorld (1000 * Second) (Some (mkNode 7%N 2)) in
  io_value (updateNode 5 w c (mkNode 7%N 1)) = (nodeSkipIncompat, c) /\
  io_trace (updateNode 5 w c (mkNode 7%N 1)) =
    [IoDial (mkNode 7%N 1); IoPeer (mkConn (mkNode 7%N 1));
     IoClose (mkConn (mkNode 7%N 1))].
Proof.
  intros c w.
  apply (updateNode_skip_incompatible 5 w c (mkNode 7%N 1)).
  - intros node Hnode. vm_compute in Hnode. injection Hnode as <-.
    vm_compute. discriminate.
  - reflexivity.
Defined.

(** The first scenario of the spec's testable properties: node A (score
    3, last checked 10 seconds ago) is in the input set, node B is
    unknown, the revalidation interval is 30 seconds and the resolver
    answers for B.  A is skipped without any network event, B is added
    with score 1, and A's record is as it was. *)
Example scenario_skip_recent_then_added :
  let recA := sampleRecord 3 (900 * Second) (990 * Second) in
  let nodeB := mkNode 8%N 1 in
  let c0 := newCrawler {[ 7%N := recA ]} (30 * Second) in
  let w := sampleWorld (1000 * Second) (Some nodeB) in
  let rA := updateNode 0 w c0 (mkNode 7%N 1) in
  let rB := updateNode 0 w (snd (io_value rA)) nodeB in
  fst (io_value rA) = nodeSkipRecent /\ io_trace rA = [] /\
  fst (io_value rB) = nodeAdded /\ io_trace rB = [IoRequestENR nodeB] /\
  output (snd (io_value rB)) !! 7%N = Some recA /\
  output (snd (io_value rB)) !! 8%N =
    Some {| Seq := 1; N' := Some nodeB; Score := 1;
            FirstResponse := 1000 * Second; LastResponse := 1000 * Second;
            LastCheck := 1000 * Second |}.
Proof. vm_compute. repeat split. Qed.

(** Stores never put a record without a positive score into the shared
    output set, however the workers' examinations and stores are
    interleaved. *)
Theorem schedule_positive_scores networkID p actions :
  positiveScores (output (shared p)) ->
  positiveScores (output (shared (schedule networkID p actions))).
Proof.
  unfold schedule. revert p.
  induction actions as [|a actions IH]; intros p Hp; simpl; [exact Hp|].
  apply IH. destruct a as [k w n|k]; simpl.
  - destruct (pending p !! k); [exact Hp|].
    destruct (io_value (examineNode networkID w (shared p) n)) as [e|[nd st]];
      exact Hp.
  - destruct (pending p !! k) as [[[n nd] st]|]; [|exact Hp].
    apply storeNode_positive, Hp.
Qed.

Lemma schedule_positive_scores_witness :
  positiveScores
    (output (shared
       (schedule 0
          (mkPool (sampleCrawler (sampleRecord 1 0 (100 * Second))) ∅)
          [Examine 1 (sampleWorld (1000 * Second) None) (mkNode 7%N 1);
           Examine 2 (sampleWorld (1001 * Second) (Some (mkNode 7%N 2)))
             (mkNode 7%N 1);
           Store 2; Store 1]))).
Proof.
  apply schedule_positive_scores.
  unfold sampleCrawler. cbn [shared]. rewrite newCrawler_output.
  apply map_Forall_singleton.
  vm_compute. reflexivity.
Defined.

(** Two workers that examine the same node before either stores: the
    later store wins.  Here the first worker's query fails (score 1 is
    halved to 0), the second worker's succeeds (score 2); stored in this
    order the node ends up removed. *)
Example schedule_last_writer_wins :
  let p := mkPool (sampleCrawler (sampleRecord 1 0 (100 * Second))) ∅ in
  let failing := sampleWorld (1000 * Second) None in
  let answering := sampleWorld (1001 * Second) (Some (mkNode 7%N 2)) in
  let n := mkNode 7%N 1 in
  Score <$> output (shared (schedule 0 p
      [Examine 1 failing n; Examine 2 answering n; Store 1; Store 2])) !! 7%N
    = Some 2 /\
  output (shared (schedule 0 p
      [Examine 1 failing n; Examine 2 answering n; Store 2; Store 1])) !! 7%N
    = None.
Proof. vm_compute. split; reflexivity. Qed.

End CrawlSpec.

(** ** Encoding and decoding in the rlp model agree *)

Module RLPFacts.
Import Stdlib.Strings.Byte.
Import RLP.
Local Open Scope N_scope.

Lemma to_N_byte_of_N n : n < 256 -> to_N (byte_of_N n) = n.
Proof.
  intros Hn. unfold byte_of_N.
  pose proof (to_of_N_option_map n) as Hmap.
  destruct (N.leb_spec n 255); [|lia].
  destruct (of_N n) as [b|]; simpl in Hmap; congruence.
Qed.

Lemma to_N_lt_256 b : to_N b < 256.
Proof. pose proof (to_N_bounded b). lia. Qed.

Lemma readFull_app (b rest : list byte) :
  readFull (N.of_nat (length b)) (b ++ rest) = Some (b, rest).
Proof.
  unfold readFull. rewrite length_app, Nat2N.id.
  destruct (N.leb_spec (N.of_nat (length b))
              (N.of_nat (length b + length rest))); [|lia].
  rewrite take_app_length, drop_app_length. reflexivity.
Qed.

(** *** [putint] *)

Lemma bigEndian_putintFrom fuel : forall i tl,
  i < 256 ^ N.of_nat fuel ->
  bigEndian 0 (putintFrom fuel i tl) = bigEndian i tl.
Proof.
  induction fuel as [|fuel IH]; intros i tl Hi.
  - simpl in *. assert (i = 0) as -> by lia. reflexivity.
  - rewrite Nat2N.inj_succ, N.pow_succ_r' in Hi. simpl.
    pose proof (N.div_mod i 256 ltac:(lia)) as Hdm.
    pose proof (N.mod_lt i 256 ltac:(lia)) as Hlt.
    destruct (N.eqb_spec (i / 256) 0) as [Hz|Hnz].
    + simpl. rewrite to_N_byte_of_N by exact Hlt. f_equal. lia.
    + rewrite IH.
      * simpl. rewrite to_N_byte_of_N by exact Hlt. f_equal. lia.
      * apply N.Div0.div_lt_upper_bound. lia.
Qed.

Lemma bigEndian_putint i : i < 2 ^ 64 -> bigEndian 0 (putint i) = i.
Proof. intros Hi. unfold putint. rewrite bigEndian_putintFrom; auto. Qed.

Lemma putintFrom_S fuel i tl :
  putintFrom (S fuel) i tl =
  if i / 256 =? 0 then byte_of_N (i mod 256) :: tl
  else putintFrom fuel (i / 256) (byte_of_N (i mod 256) :: tl).
Proof. reflexivity. Qed.

Lemma length_putintFrom fuel : forall i tl k,
  i < 256 ^ N.of_nat k -> (1 <= k <= S fuel)%nat ->
  (S (length tl) <= length (putintFrom (S fuel) i tl) <= k + length tl)%nat.
Proof.
  induction fuel as [|fuel IH]; intros i tl k Hi Hk.
  - assert (k = 1%nat) as -> by lia. simpl in *.
    destruct (N.eqb_spec (i / 256) 0); simpl; lia.
  - rewrite putintFrom_S.
    destruct (N.eqb_spec (i / 256) 0) as [Hz|Hnz]; [simpl; lia|].
    destruct k as [|[|k]]; [lia| |].
    + exfalso. apply Hnz. apply N.div_small. simpl in Hi. lia.
    + specialize (IH (i / 256) (byte_of_N (i mod 256) :: tl) (S k)).
      cbn [length] in IH.
      assert (Hdiv : i / 256 < 256 ^ N.of_nat (S k)).
      { apply N.Div0.div_lt_upper_bound.
        rewrite <- N.pow_succ_r', <- Nat2N.inj_succ. exact Hi. }
      specialize (IH Hdiv ltac:(lia)). lia.
Qed.

Lemma length_putint i k :
  i < 256 ^ N.of_nat k -> (1 <= k <= 8)%nat ->
  (1 <= length (putint i) <= k)%nat.
Proof.
  intros Hi Hk. unfold putint.
  pose proof (length_putintFrom 7 i [] k Hi ltac:(lia)). simpl in *. lia.
Qed.

Lemma putintFrom_head fuel : forall i tl,
  0 < i -> i < 256 ^ N.of_nat fuel ->
  exists b r, putintFrom fuel i tl = b :: r /\ to_N b <> 0.
Proof.
  induction fuel as [|fuel IH]; intros i tl Hpos Hi.
  - simpl in Hi. lia.
  - rewrite Nat2N.inj_succ, N.pow_succ_r' in Hi. simpl.
    pose proof (N.div_mod i 256 ltac:(lia)) as Hdm.
    pose proof (N.mod_lt i 256 ltac:(lia)) as Hlt.
    destruct (N.eqb_spec (i / 256) 0) as [Hz|Hnz].
    + eexists _, _. split; [reflexivity|].
      rewrite to_N_byte_of_N by exact Hlt. lia.
    + apply IH; [lia|]. apply N.Div0.div_lt_upper_bound. lia.
Qed.

(** Reading back the bytes that [putint] wrote. *)
Lemma readUint_putint i rest :
  0 < i -> i < 2 ^ 64 ->
  readUint (N.of_nat (length (putint i))) (putint i ++ rest) = Some (i, rest).
Proof.
  intros Hpos Hi.
  pose proof (length_putint i 8 Hi ltac:(lia)) as Hlen.
  pose proof (bigEndian_putint i Hi) as Hval.
  destruct (putintFrom_head 8 i [] Hpos Hi) as (b & r & Hput & Hb).
  fold (putint i) in Hput. unfold readUint.
  destruct (N.eqb_spec (N.of_nat (length (putint i))) 0); [lia|].
  destruct (N.eqb_spec (N.of_nat (length (putint i))) 1) as [Hone|Hmore].
  - rewrite Hput in *. destruct r; [|simpl in Hone; lia].
    simpl in Hval. simpl. do 2 f_equal. lia.
  - rewrite readFull_app. simpl. rewrite Hput at 1.
    destruct (N.eqb_spec (to_N b) 0); [contradiction|].
    rewrite Hval. reflexivity.
Qed.

(** *** Headers *)

#[local] Arguments putint : simpl never.

Ltac decide_ltb :=
  repeat match goal with
         | |- context [?a <? ?b] => destruct (N.ltb_spec a b); try lia
         | |- context [?a <=? ?b] => destruct (N.leb_spec a b); try lia
         | |- context [?a =? ?b] => destruct (N.eqb_spec a b); try lia
         end.

Lemma readKind_puthead_string size rest :
  size < 2 ^ 64 ->
  readKind (puthead 0x80 0xB7 size ++ rest) = Some (String size, rest).
Proof.
  intros Hsize. unfold puthead.
  destruct (N.ltb_spec size 56) as [Hsmall|Hlarge].
  - simpl. rewrite to_N_byte_of_N by lia. decide_ltb.
    do 3 f_equal. lia.
  - pose proof (length_putint size 8 Hsize ltac:(lia)) as Hlen.
    simpl. rewrite to_N_byte_of_N by lia. decide_ltb.
    replace (183 + N.of_nat (length (putint size)) - 183)
      with (N.of_nat (length (putint size))) by lia.
    rewrite readUint_putint by lia. simpl. decide_ltb. reflexivity.
Qed.

Lemma readKind_puthead_list size rest :
  size < 2 ^ 64 ->
  readKind (puthead 0xC0 0xF7 size ++ rest) = Some (List size, rest).
Proof.
  intros Hsize. unfold puthead.
  destruct (N.ltb_spec size 56) as [Hsmall|Hlarge].
  - simpl. rewrite to_N_byte_of_N by lia. decide_ltb.
    do 3 f_equal. lia.
  - pose proof (length_putint size 8 Hsize ltac:(lia)) as Hlen.
    simpl. rewrite to_N_byte_of_N by lia. decide_ltb.
    replace (247 + N.of_nat (length (putint size)) - 247)
      with (N.of_nat (length (putint size))) by lia.
    rewrite readUint_putint by lia. simpl. decide_ltb. reflexivity.
Qed.

Lemma puthead_nonempty small large size : puthead small large size <> [].
Proof. unfold puthead. destruct (size <? 56); discriminate. Qed.

(** A string header and its content, read back. *)
Lemma nextKind_string (b rest : list byte) :
  N.of_nat (length b) < 2 ^ 64 ->
  nextKind (puthead 0x80 0xB7 (N.of_nat (length b)) ++ b ++ rest) =
  Some (String (N.of_nat (length b)), b ++ rest).
Proof.
  intros Hlen. unfold nextKind. rewrite readKind_puthead_string by exact Hlen.
  simpl. rewrite length_app. decide_ltb. reflexivity.
Qed.

(** A list header and its content, entered. *)
Lemma enterList_puthead (content rest : list byte) :
  N.of_nat (length content) < 2 ^ 64 ->
  enterList (puthead 0xC0 0xF7 (N.of_nat (length content)) ++ content ++ rest) =
  Some (content, rest).
Proof.
  intros Hlen. unfold enterList, nextKind.
  rewrite readKind_puthead_list by exact Hlen.
  simpl. rewrite length_app. decide_ltb. apply readFull_app.
Qed.

(** *** Values *)

Lemma decodeByteSlice_encodeBytes (b rest : list byte) :
  N.of_nat (length b) < 2 ^ 64 ->
  decodeByteSlice (encodeBytes b ++ rest) = Some (b, rest).
Proof.
  intros Hlen. unfold encodeBytes.
  assert (Hgeneral :
    (forall b0, b = [b0] -> 128 <= to_N b0) ->
    decodeByteSlice (puthead 0x80 0xB7 (N.of_nat (length b)) ++ b ++ rest) =
    Some (b, rest)).
  { intros Hhigh. unfold decodeByteSlice. rewrite nextKind_string by exact Hlen.
    simpl. rewrite readFull_app. simpl.
    destruct b as [|b0 [|b1 b']]; try reflexivity.
    specialize (Hhigh b0 eq_refl). decide_ltb. reflexivity. }
  destruct b as [|b0 [|b1 b']].
  - rewrite <- app_assoc. apply Hgeneral. discriminate.
  - destruct (N.leb_spec (to_N b0) 127) as [Hlow|Hhigh].
    + unfold decodeByteSlice, nextKind. simpl. decide_ltb. simpl.
      destruct (N.leb_spec 0 (N.of_nat (length rest))); [reflexivity | lia].
    + rewrite <- app_assoc. apply (Hgeneral).
      intros ? [= <-]. lia.
  - rewrite <- app_assoc. apply Hgeneral. discriminate.
Qed.

Lemma decodeByteArray_encodeByteArray (b rest : list byte) :
  (2 <= length b)%nat -> N.of_nat (length b) < 2 ^ 64 ->
  decodeByteArray (N.of_nat (length b)) (encodeByteArray b ++ rest) =
  Some (b, rest).
Proof.
  intros Htwo Hlen. unfold decodeByteArray, encodeByteArray.
  rewrite <- app_assoc, nextKind_string by exact Hlen. simpl.
  rewrite N.eqb_refl. simpl. rewrite readFull_app. simpl.
  destruct b as [|b0 [|b1 b']]; simpl in Htwo; try lia. reflexivity.
Qed.

Lemma decodeUint_encodeUint (maxbits i : N) (rest : list byte) (k : nat) :
  i < 256 ^ N.of_nat k -> (1 <= k <= 8)%nat -> N.of_nat k <= maxbits / 8 ->
  decodeUint maxbits (encodeUint i ++ rest) = Some (i, rest).
Proof.
  intros Hi Hk Hbits. unfold encodeUint, decodeUint, nextKind.
  assert (Hi64 : i < 2 ^ 64).
  { eapply N.lt_le_trans; [exact Hi|].
    change (2 ^ 64) with (256 ^ 8). apply N.pow_le_mono_r; lia. }
  destruct (N.eqb_spec i 0) as [->|Hnz].
  - simpl. decide_ltb. simpl. decide_ltb. reflexivity.
  - destruct (N.ltb_spec i 128) as [Hlow|Hhigh].
    + repeat first [ rewrite to_N_byte_of_N by lia | progress simpl
                   | progress decide_ltb ].
      reflexivity.
    + pose proof (length_putint i k Hi Hk) as Hlen.
      simpl. rewrite to_N_byte_of_N by lia. decide_ltb.
      replace (128 + N.of_nat (length (putint i)) - 128)
        with (N.of_nat (length (putint i))) by lia.
      simpl. rewrite length_app. decide_ltb. simpl.
      rewrite readUint_putint by lia. simpl. decide_ltb. reflexivity.
Qed.

(** *** Lists *)

Lemma decodeSliceElems_concat {T} (elem : Decoder T) (enc : T -> list byte)
    (xs : list T) :
  Forall (fun x => enc x <> [] /\
                   forall rest, elem (enc x ++ rest) = Some (x, rest)) xs ->
  forall fuel, (length (concat (map enc xs)) <= fuel)%nat ->
  decodeSliceElems fuel elem (concat (map enc xs)) = Some xs.
Proof.
  induction 1 as [|x xs [Hne Hx] _ IH]; intros fuel Hfuel.
  - destruct fuel; reflexivity.
  - simpl in *. rewrite length_app in Hfuel.
    destruct (enc x) as [|b e] eqn:He; [contradiction|].
    simpl in *. destruct fuel as [|fuel]; [lia|].
    specialize (Hx (concat (map enc xs))). simpl in Hx.
    cbn [decodeSliceElems]. rewrite Hx. simpl.
    rewrite IH by lia. reflexivity.
Qed.

Lemma decodeListSlice_encodeList {T} (elem : Decoder T) (enc : T -> list byte)
    (xs : list T) (rest : list byte) :
  Forall (fun x => enc x <> [] /\
                   forall rest, elem (enc x ++ rest) = Some (x, rest)) xs ->
  N.of_nat (length (concat (map enc xs))) < 2 ^ 64 ->
  decodeListSlice elem (encodeList (map enc xs) ++ rest) = Some (xs, rest).
Proof.
  intros Hxs Hlen. unfold decodeListSlice, encodeList.
  rewrite <- app_assoc, enterList_puthead by exact Hlen. simpl.
  rewrite (decodeSliceElems_concat elem enc xs Hxs) by lia. reflexivity.
Qed.

Lemma length_encodeList elems :
  (length (concat elems) <= length (encodeList elems))%nat.
Proof. unfold encodeList. rewrite length_app. lia. Qed.

Lemma encodeUint_nonempty i : encodeUint i <> [].
Proof.
  unfold encodeUint. destruct (i =? 0); [discriminate|].
  destruct (i <? 128); discriminate.
Qed.

Lemma encodeByteArray_nonempty b : encodeByteArray b <> [].
Proof.
  unfold encodeByteArray. intros Heq.
  apply app_eq_nil in Heq as [Heq _]. exact (puthead_nonempty _ _ _ Heq).
Qed.

(** The encoding of a hash is the byte 0xA0 and the 32 bytes. *)
Lemma encodeByteArray_32 (h : list byte) :
  length h = 32%nat -> encodeByteArray h = xa0 :: h.
Proof. intros Hlen. unfold encodeByteArray. rewrite Hlen. reflexivity. Qed.

End RLPFacts.

Module P2PSpec.
Import Stdlib.Strings.Byte.
Import Go RLP P2P.
Local Open Scope Z_scope.

(** Packets for the examples: a packet is kept as the rlp values it is
    made of, after the request id where it has one. *)
Definition decodeIdAndRest : Decoder (N * list (list byte)) :=
  decodeStruct (fun bs =>
    '(id, bs) ← decodeUint 64 bs;
    rest ← decodeSliceElems (length bs) decodeRaw bs;
    Some ((id, rest), [])).

#[local] Instance rawPackets : Packets := {|
  DiscReason := N;
  decodeDiscReason := decodeUint 64;
  decodeDiscReasons := decodeListSlice (decodeUint 64);
  Cap := list byte;
  decodeCap := decodeRaw;
  eth := fun _ => list byte;
  decodeEth := fun _ => decodeRaw;
  eth66 := fun _ => (N * list (list byte))%type;
  RequestId := fun _ p => Z.of_N (fst p);
  decodeEth66 := fun _ => decodeIdAndRest;
  snap := fun _ => (N * list (list byte))%type;
  ID := fun _ p => Z.of_N (fst p);
  decodeSnap := fun _ => decodeIdAndRest
|}.

(** A hash of 32 equal bytes, and a clock that advances a second from one
    reading to the next, for the examples. *)
Definition hashOf (b : byte) : Hash := repeat b 32.

Definition sampleClock (k : nat) : Time := Z.of_nat k * Second.

(** The names of the message variants in the spec's table of wire codes. *)
Inductive variant : Type :=
  | hello | disconnect | disconnects | ping | pong
  | status | new_block_hashes | transactions
  | get_block_headers | block_headers | get_block_bodies | block_bodies
  | new_block | pooled_tx_hashes_legacy | pooled_tx_hashes_typed
  | get_pooled_transactions | pooled_transactions
  | get_account_range | account_range | get_storage_ranges | storage_ranges
  | get_byte_codes | byte_codes | get_trie_nodes | trie_nodes.

(** The spec's table of wire codes. *)
Definition wireCode (v : variant) : Z :=
  match v with
  | hello => 0x00
  | disconnect | disconnects => 0x01
  | ping => 0x02
  | pong => 0x03
  | status => 16
  | new_block_hashes => 17
  | transactions => 18
  | get_block_headers => 19
  | block_headers => 20
  | get_block_bodies => 21
  | block_bodies => 22
  | new_block => 23
  | pooled_tx_hashes_legacy | pooled_tx_hashes_typed => 24
  | get_pooled_transactions => 25
  | pooled_transactions => 26
  | get_account_range => 33
  | account_range => 34
  | get_storage_ranges => 35
  | storage_ranges => 36
  | get_byte_codes => 37
  | byte_codes => 38
  | get_trie_nodes => 39
  | trie_nodes => 40
  end.

(** The variants that take no part in a request/response exchange. *)
Definition uncorrelated (v : variant) : bool :=
  match v with
  | hello | disconnect | disconnects | ping | pong | status
  | new_block_hashes | transactions | new_block
  | pooled_tx_hashes_legacy | pooled_tx_hashes_typed => true
  | _ => false
  end.

Section Codec.
Context {P : Packets}.

(** Which variant a message is; an [Error] is none. *)
Definition variantOf (m : Message) : option variant :=
  match m with
  | MsgError _ => None
  | MsgHello _ => Some hello
  | MsgDisconnect _ => Some disconnect
  | MsgDisconnects _ => Some disconnects
  | MsgPing => Some ping
  | MsgPong => Some pong
  | MsgStatus _ => Some status
  | MsgNewBlockHashes _ => Some new_block_hashes
  | MsgTransactions _ => Some transactions
  | MsgGetBlockHeaders _ => Some get_block_headers
  | MsgBlockHeaders _ => Some block_headers
  | MsgGetBlockBodies _ => Some get_block_bodies
  | MsgBlockBodies _ => Some block_bodies
  | MsgNewBlock _ => Some new_block
  | MsgNewPooledTransactionHashes66 _ => Some pooled_tx_hashes_legacy
  | MsgNewPooledTransactionHashes _ => Some pooled_tx_hashes_typed
  | MsgGetPooledTransactions _ => Some get_pooled_transactions
  | MsgPooledTransactions _ => Some pooled_transactions
  | MsgGetAccountRange _ => Some get_account_range
  | MsgAccountRange _ => Some account_range
  | MsgGetStorageRanges _ => Some get_storage_ranges
  | MsgStorageRanges _ => Some storage_ranges
  | MsgGetByteCodes _ => Some get_byte_codes
  | MsgByteCodes _ => Some byte_codes
  | MsgGetTrieNodes _ => Some get_trie_nodes
  | MsgTrieNodes _ => Some trie_nodes
  end.

(** C7: the [Code] method of every message variant returns the wire code
    that the spec's table gives for it. *)
Theorem Code_matches_wire_table (m : Message) (v : variant) :
  variantOf m = Some v -> Code m = wireCode v.
Proof.
  destruct m; simpl; intros Hv; inversion Hv; subst; reflexivity.
Qed.

(** C6 fails for [Transactions]: its [ReqID] method returns 18, not 0,
    although the variant has no request/response correlation. *)
Theorem Transactions_ReqID_not_zero (msg : Transactions) :
  uncorrelated transactions = true /\
  variantOf (MsgTransactions msg) = Some transactions /\
  ReqID (MsgTransactions msg) = 18.
Proof. repeat split. Qed.

(** Every other variant without correlation has request id 0. *)
Lemma ReqID_uncorrelated (m : Message) (v : variant) :
  variantOf m = Some v -> uncorrelated v = true -> v <> transactions ->
  ReqID m = 0.
Proof.
  destruct m; simpl; intros Hv; inversion Hv; subst; simpl;
    intros Hun Hne; try reflexivity; try discriminate; congruence.
Qed.

(** The codes that [Conn.Read] has a case for: the control and
    chain-sync codes of the spec's table. *)
Definition recognized (c : Z) : bool :=
  existsb (Z.eqb c) [0; 1; 2; 3; 16; 17; 18; 19; 20; 21; 22; 23; 24; 25; 26].

(** The message shapes a frame of a recognized code may carry, each with
    its decoder, in the order the spec's section 4.2 has them tried. *)
Definition candidates (c : Z) : list (list byte -> option Message) :=
  let one {T} (dec : Decoder T) (wrap : T -> Message) :=
    [fun rawData => wrap <$> DecodeBytes dec rawData] in
  match c with
  | 0 => one decodeHello MsgHello
  | 1 => one decodeDisconnects MsgDisconnects ++ one decodeDisconnect MsgDisconnect
  | 2 => one decodeEmptyStruct (fun _ => MsgPing)
  | 3 => one decodeEmptyStruct (fun _ => MsgPong)
  | 16 => one (decodeEth StatusPacket) MsgStatus
  | 17 => one (decodeEth NewBlockHashesPacket) MsgNewBlockHashes
  | 18 => one (decodeEth TransactionsPacket) MsgTransactions
  | 19 => one (decodeEth66 GetBlockHeadersPacket66) MsgGetBlockHeaders
  | 20 => one (decodeEth66 BlockHeadersPacket66) MsgBlockHeaders
  | 21 => one (decodeEth66 GetBlockBodiesPacket66) MsgGetBlockBodies
  | 22 => one (decodeEth66 BlockBodiesPacket66) MsgBlockBodies
  | 23 => one (decodeEth NewBlockPacket) MsgNewBlock
  | 24 => one decodeNewPooledTransactionHashes MsgNewPooledTransactionHashes
          ++ one decodeNewPooledTransactionHashes66
               MsgNewPooledTransactionHashes66
  | 25 => one (decodeEth66 GetPooledTransactionsPacket66) MsgGetPooledTransactions
  | 26 => one (decodeEth66 PooledTransactionsPacket66) MsgPooledTransactions
  | _ => []
  end.

(** The first candidate that decodes the data. *)
Fixpoint firstDecoded (ds : list (list byte -> option Message)) (rawData : list byte)
  : option Message :=
  match ds with
  | [] => None
  | d :: rest =>
      match d rawData with
      | Some m => Some m
      | None => firstDecoded rest rawData
      end
  end.

(** An error-carrying message, as the [Message] methods show it. *)
Definition errorMessage (m : Message) : Prop :=
  exists e, m = MsgError e /\ Code m = -1 /\ ReqID m = 0.

(** The state-sync codes of the spec's table. *)
Definition stateSyncCode (c : Z) : option snapPacket :=
  match c with
  | 33 => Some GetAccountRangePacket
  | 34 => Some AccountRangePacket
  | 35 => Some GetStorageRangesPacket
  | 36 => Some StorageRangesPacket
  | 37 => Some GetByteCodesPacket
  | 38 => Some ByteCodesPacket
  | 39 => Some GetTrieNodesPacket
  | 40 => Some TrieNodesPacket
  | _ => None
  end.

(** A state-sync packet as a [Message]. *)
Definition snapMessage (t : snapPacket) : snap t -> Message :=
  match t with
  | GetAccountRangePacket => MsgGetAccountRange
  | AccountRangePacket => MsgAccountRange
  | GetStorageRangesPacket => MsgGetStorageRanges
  | StorageRangesPacket => MsgStorageRanges
  | GetByteCodesPacket => MsgGetByteCodes
  | ByteCodesPacket => MsgByteCodes
  | GetTrieNodesPacket => MsgGetTrieNodes
  | TrieNodesPacket => MsgTrieNodes
  end.

(** A frame that [ReadSnap] passes over: one whose code is no state-sync
    code. *)
Definition passedOver (r : readResult) : Prop :=
  match r with
  | readError => False
  | readFrame code _ => stateSyncCode (int_of_uint64 code) = None
  end.

(** At the [k]-th reading of the clock the timeout has not elapsed since
    the first one. *)
Definition waiting (timeout : Duration) (clock : nat -> Time) (k : nat) : Prop :=
  Since (clock k) (clock O) < timeout.

Lemma decodeInto_fmap {T} (dec : Decoder T) (wrap : T -> Message) rawData :
  decodeInto dec wrap rawData =
  default (errorf errDecode) (wrap <$> DecodeBytes dec rawData).
Proof. unfold decodeInto. destruct (DecodeBytes dec rawData); reflexivity. Qed.

Lemma recognized_cases (c : Z) :
  recognized c = false \/
  c = 0 \/ c = 1 \/ c = 2 \/ c = 3 \/ c = 16 \/ c = 17 \/ c = 18 \/ c = 19 \/
  c = 20 \/ c = 21 \/ c = 22 \/ c = 23 \/ c = 24 \/ c = 25 \/ c = 26.
Proof.
  destruct (recognized c) eqn:Hrec; [right | left; reflexivity].
  unfold recognized, existsb in Hrec.
  rewrite !orb_true_iff, !Z.eqb_eq in Hrec. intuition discriminate.
Qed.

(** [Conn.Read] on a frame of a recognized code yields the first candidate
    shape that decodes, or the decode error. *)
Lemma readFrameMessage_recognized code rawData :
  recognized (int_of_uint64 code) = true ->
  readFrameMessage code rawData =
  default (errorf errDecode)
    (firstDecoded (candidates (int_of_uint64 code)) rawData).
Proof.
  intros Hrec. unfold readFrameMessage.
  destruct (recognized_cases (int_of_uint64 code)) as [Hno|Hc];
    [congruence|].
  repeat (destruct Hc as [Hc|Hc]; [rewrite Hc; simpl;
    rewrite ?decodeInto_fmap;
    repeat (match goal with
            | |- context [DecodeBytes ?d ?r] => destruct (DecodeBytes d r)
            end; simpl); reflexivity|]).
  rewrite Hc; simpl. rewrite ?decodeInto_fmap.
  destruct (DecodeBytes _ rawData); reflexivity.
Qed.

(** On any other code it yields an error-carrying message. *)
Lemma readFrameMessage_unrecognized code rawData :
  recognized (int_of_uint64 code) = false ->
  exists e, readFrameMessage code rawData = errorf e.
Proof.
  intros Hrec. unfold recognized, existsb in Hrec.
  rewrite !orb_false_iff in Hrec. decompose [and] Hrec. clear Hrec.
  unfold readFrameMessage.
  unfold Hello_Code, Ping_Code, Pong_Code, Disconnect_Code, Status_Code,
    GetBlockHeaders_Code, BlockHeaders_Code, GetBlockBodies_Code,
    BlockBodies_Code, NewBlock_Code, NewBlockHashes_Code, Transactions_Code,
    NewPooledTransactionHashes66_Code, GetPooledTransactions_Code,
    PooledTransactions_Code.
  repeat match goal with
         | Hne : (_ =? _) = false |- _ => rewrite Hne; clear Hne
         end.
  unfold decodeInto. destruct (DecodeBytes _ rawData); eauto.
Qed.

Lemma errorf_errorMessage e : errorMessage (errorf e).
Proof. eexists. repeat split. Qed.

Lemma firstDecoded_none ds rawData :
  Forall (fun d => d rawData = None) ds -> firstDecoded ds rawData = None.
Proof.
  induction 1 as [|d ds Hd _ IH]; simpl; [reflexivity|].
  rewrite Hd. exact IH.
Qed.

(** C5: [Conn.Read] on a connection with a frame pending returns a
    [Message] (the model has no other outcome: no case of the function can
    panic).  For a code without a case in [Read], and for a recognized code
    none of whose shapes decodes the data, the message is an [Error], whose
    [Code] is -1 and whose [ReqID] is 0. *)
Theorem Read_error_message code rawData rest :
  exists m,
    Read (mkConn (readFrame code rawData :: rest)) = Some (m, mkConn rest) /\
    (recognized (int_of_uint64 code) = false -> errorMessage m) /\
    (recognized (int_of_uint64 code) = true ->
     Forall (fun d => d rawData = None) (candidates (int_of_uint64 code)) ->
     errorMessage m).
Proof.
  eexists. split; [reflexivity|]. split.
  - intros Hrec. destruct (readFrameMessage_unrecognized _ rawData Hrec) as [e ->].
    apply errorf_errorMessage.
  - intros Hrec Hfail. rewrite (readFrameMessage_recognized _ _ Hrec).
    rewrite (firstDecoded_none _ _ Hfail). apply errorf_errorMessage.
Qed.

(** A failed transport read gives an error-carrying message as well. *)
Lemma Read_transport_error rest :
  Read (mkConn (readError :: rest)) = Some (errorf errRead, mkConn rest).
Proof. reflexivity. Qed.

(** The [switch] of [ReadSnap] recognizes the state-sync codes and picks
    the decoder of the packet the code stands for. *)
Lemma snapDecoder_stateSyncCode code :
  snapDecoder code =
  (fun t rawData => snapMessage t <$> DecodeBytes (decodeSnap t) rawData)
    <$> stateSyncCode (int_of_uint64 code).
Proof.
  unfold snapDecoder.
  unfold GetAccountRange_Code, AccountRange_Code, GetStorageRanges_Code,
    StorageRanges_Code, GetByteCodes_Code, ByteCodes_Code, GetTrieNodes_Code,
    TrieNodes_Code.
  repeat (destruct (Z.eqb_spec (int_of_uint64 code) _) as [->|?];
          [reflexivity|]).
  destruct (int_of_uint64 code) as [|p|p]; try reflexivity.
  do 6 (destruct p as [p|p|]; try reflexivity; try lia).
Qed.

Lemma respId_differs id : (wrap_uint64 (id + 1) =? id) = false.
Proof.
  apply Z.eqb_neq. unfold wrap_uint64. intros Heq.
  pose proof (Z.mod_pos_bound (id + 1) (2 ^ 64) ltac:(lia)) as Hb.
  rewrite Heq in Hb.
  assert (Hsmall : (id + 1) mod 2 ^ 64 = id + 1 \/ id + 1 = 2 ^ 64).
  { destruct (Z.eq_dec (id + 1) (2 ^ 64)); [auto|].
    left. apply Z.mod_small. lia. }
  destruct Hsmall as [Hs|Hs].
  - lia.
  - rewrite Hs, Z.mod_same in Heq by lia. lia.
Qed.

(** The loop goes past frames whose code is no state-sync code for as
    long as the timeout has not elapsed. *)
Lemma readSnapLoop_passes_over timeout clock id pre :
  Forall passedOver pre ->
  forall k rest,
  (forall j, (k <= j < k + length pre)%nat -> waiting timeout clock j) ->
  readSnapLoop timeout clock (clock O) id (wrap_uint64 (id + 1)) k (pre ++ rest) =
  readSnapLoop timeout clock (clock O) id (wrap_uint64 (id + 1))
    (k + length pre) rest.
Proof.
  induction 1 as [|r pre Hr _ IH]; intros k rest Hwait.
  - simpl. rewrite Nat.add_0_r. reflexivity.
  - simpl. rewrite respId_differs. simpl.
    pose proof (Hwait k ltac:(simpl; lia)) as Hk. unfold waiting in Hk.
    destruct (Z.ltb_spec (Since (clock k) (clock O)) timeout); [|lia].
    destruct r as [|code rawData]; [destruct Hr|].
    simpl in Hr. rewrite snapDecoder_stateSyncCode, Hr. simpl.
    rewrite IH.
    + f_equal. lia.
    + intros j Hj. apply Hwait. simpl. lia.
Qed.

Lemma readSnapLoop_frame timeout clock id k code rawData rest :
  waiting timeout clock k ->
  readSnapLoop timeout clock (clock O) id (wrap_uint64 (id + 1)) k
    (readFrame code rawData :: rest) =
  match stateSyncCode (int_of_uint64 code) with
  | None =>
      readSnapLoop timeout clock (clock O) id (wrap_uint64 (id + 1)) (S k) rest
  | Some t =>
      match DecodeBytes (decodeSnap t) rawData with
      | None => Some (inr errDecode, mkConn rest)
      | Some p => Some (inl (snapMessage t p), mkConn rest)
      end
  end.
Proof.
  intros Hk. unfold waiting in Hk. simpl. rewrite respId_differs. simpl.
  destruct (Z.ltb_spec (Since (clock k) (clock O)) timeout); [|lia].
  rewrite snapDecoder_stateSyncCode.
  destruct (stateSyncCode (int_of_uint64 code)) as [t|]; simpl; [|reflexivity].
  destruct (DecodeBytes (decodeSnap t) rawData); reflexivity.
Qed.

Lemma readSnapLoop_timeout timeout clock id k pending :
  ~ waiting timeout clock k ->
  readSnapLoop timeout clock (clock O) id (wrap_uint64 (id + 1)) k pending =
  Some (inr errTimedOut, mkConn pending).
Proof.
  intros Hk. unfold waiting in Hk.
  destruct pending as [|r rest]; simpl; rewrite respId_differs; simpl;
    destruct (Z.ltb_spec (Since (clock k) (clock O)) timeout);
    try lia; reflexivity.
Qed.

(** C9: [ReadSnap] passes over every frame whose code is no state-sync
    code while the timeout has not elapsed.  When the next frame then has a
    state-sync code and its data decodes, that message is returned,
    whatever [id] was asked for; when instead the timeout has elapsed at
    the next check of the loop, the call fails with the timeout error. *)
Theorem ReadSnap_first_state_sync_frame timeout clock id pre rest :
  Forall passedOver pre ->
  (forall j, (1 <= j <= length pre)%nat -> waiting timeout clock j) ->
  (forall code rawData t p,
     waiting timeout clock (S (length pre)) ->
     stateSyncCode (int_of_uint64 code) = Some t ->
     DecodeBytes (decodeSnap t) rawData = Some p ->
     ReadSnap timeout clock (mkConn (pre ++ readFrame code rawData :: rest)) id =
     Some (inl (snapMessage t p), mkConn rest)) /\
  (~ waiting timeout clock (S (length pre)) ->
   ReadSnap timeout clock (mkConn (pre ++ rest)) id =
   Some (inr errTimedOut, mkConn rest)).
Proof.
  intros Hpre Hwait. split.
  - intros code rawData t p Hnext Hcode Hdec. unfold ReadSnap. simpl.
    rewrite (readSnapLoop_passes_over _ _ _ _ Hpre)
      by (intros j Hj; apply Hwait; lia).
    rewrite (readSnapLoop_frame _ _ _ _ _ _ _ Hnext), Hcode, Hdec.
    reflexivity.
  - intros Hout. unfold ReadSnap. simpl.
    rewrite (readSnapLoop_passes_over _ _ _ _ Hpre)
      by (intros j Hj; apply Hwait; lia).
    apply readSnapLoop_timeout. exact Hout.
Qed.

(** C10: when, after frames that were passed over, a frame with a
    state-sync code arrives whose data does not decode, [ReadSnap] returns
    the decode error at once, with no message, and leaves the frames after
    it unread. *)
Theorem ReadSnap_decode_error timeout clock id pre code rawData rest t :
  Forall passedOver pre ->
  (forall j, (1 <= j <= S (length pre))%nat -> waiting timeout clock j) ->
  stateSyncCode (int_of_uint64 code) = Some t ->
  DecodeBytes (decodeSnap t) rawData = None ->
  ReadSnap timeout clock (mkConn (pre ++ readFrame code rawData :: rest)) id =
  Some (inr errDecode, mkConn rest).
Proof.
  intros Hpre Hwait Hcode Hdec. unfold ReadSnap. simpl.
  rewrite (readSnapLoop_passes_over _ _ _ _ Hpre)
    by (intros j Hj; apply Hwait; lia).
  rewrite readSnapLoop_frame by (apply Hwait; lia).
  rewrite Hcode, Hdec. reflexivity.
Qed.

(** *** The two shapes under code 24 *)

Lemma decodeHash_encodeByteArray (h rest : list byte) :
  length h = 32%nat ->
  decodeHash (encodeByteArray h ++ rest) = Some (h, rest).
Proof.
  intros Hlen. unfold decodeHash, HashLength.
  replace 32%N with (N.of_nat (length h)) by (rewrite Hlen; reflexivity).
  apply RLPFacts.decodeByteArray_encodeByteArray; rewrite Hlen;
    [lia | reflexivity].
Qed.

Lemma hashes_decodable (hs : list Hash) :
  Forall (fun h => length h = 32%nat) hs ->
  Forall (fun h => encodeByteArray h <> [] /\
            forall rest, decodeHash (encodeByteArray h ++ rest) = Some (h, rest))
    hs.
Proof.
  intros Hall. eapply Forall_impl; [exact Hall|]. intros h Hlen. split.
  - apply RLPFacts.encodeByteArray_nonempty.
  - intros rest. apply decodeHash_encodeByteArray, Hlen.
Qed.

Lemma sizes_decodable (sizes : list N) :
  Forall (fun n => (n < 2 ^ 32)%N) sizes ->
  Forall (fun n => encodeUint n <> [] /\
            forall rest, decodeUint 32 (encodeUint n ++ rest) = Some (n, rest))
    sizes.
Proof.
  intros Hall. eapply Forall_impl; [exact Hall|]. intros n Hn. split.
  - apply RLPFacts.encodeUint_nonempty.
  - intros rest.
    apply (RLPFacts.decodeUint_encodeUint 32 n rest 4); [exact Hn | lia |].
    vm_compute. discriminate.
Qed.

(** The legacy decoder reads back a list of hashes. *)
Lemma decode_legacy_hashes (hashes : NewPooledTransactionHashes66) :
  Forall (fun h => length h = 32%nat) hashes ->
  (N.of_nat (length (encodeNewPooledTransactionHashes66 hashes)) < 2 ^ 64)%N ->
  DecodeBytes decodeNewPooledTransactionHashes66
    (encodeNewPooledTransactionHashes66 hashes) = Some hashes.
Proof.
  intros Hhashes Hlen. unfold DecodeBytes, decodeNewPooledTransactionHashes66.
  unfold encodeNewPooledTransactionHashes66 in *.
  pose proof (RLPFacts.length_encodeList (map encodeByteArray hashes)) as Hle.
  rewrite <- (app_nil_r (encodeList _)).
  rewrite (RLPFacts.decodeListSlice_encodeList decodeHash encodeByteArray)
    by (try apply hashes_decodable; try assumption; lia).
  reflexivity.
Qed.

(** The typed decoder does not accept a list of hashes: the list is empty
    or has one element, and a field is missing; or its second element is a
    string where the typed shape has the list of sizes. *)
Lemma decode_typed_rejects_legacy (hashes : NewPooledTransactionHashes66) :
  Forall (fun h => length h = 32%nat) hashes ->
  (N.of_nat (length (encodeNewPooledTransactionHashes66 hashes)) < 2 ^ 64)%N ->
  DecodeBytes decodeNewPooledTransactionHashes
    (encodeNewPooledTransactionHashes66 hashes) = None.
Proof.
  intros Hhashes Hlen. unfold DecodeBytes, decodeNewPooledTransactionHashes.
  unfold encodeNewPooledTransactionHashes66 in *.
  pose proof (RLPFacts.length_encodeList (map encodeByteArray hashes)) as Hle.
  unfold decodeStruct, encodeList.
  rewrite <- (app_nil_r (concat _)) at 2.
  rewrite RLPFacts.enterList_puthead by lia. simpl.
  destruct Hhashes as [|h1 hs H1 Hhs]; [reflexivity|].
  simpl.
  assert (Hfirst : forall rest,
    decodeByteSlice (encodeByteArray h1 ++ rest) = Some (h1, rest)).
  { intros rest.
    replace (encodeByteArray h1) with (encodeBytes h1).
    - apply RLPFacts.decodeByteSlice_encodeBytes. rewrite H1. reflexivity.
    - unfold encodeBytes, encodeByteArray.
      destruct h1 as [|b0 [|b1 h1]]; try reflexivity. discriminate. }
  rewrite Hfirst. simpl.
  destruct Hhs as [|h2 hs H2 _]; [reflexivity|].
  simpl. rewrite (RLPFacts.encodeByteArray_32 h2 H2).
  unfold decodeListSlice, enterList, nextKind. simpl.
  destruct (_ <=? _)%N; reflexivity.
Qed.

(** The typed decoder reads back a typed announcement. *)
Lemma decode_typed_hashes (msg : NewPooledTransactionHashes) :
  Forall (fun h => length h = 32%nat) (Hashes msg) ->
  Forall (fun n => (n < 2 ^ 32)%N) (Sizes msg) ->
  (N.of_nat (length (encodeNewPooledTransactionHashes msg)) < 2 ^ 64)%N ->
  DecodeBytes decodeNewPooledTransactionHashes
    (encodeNewPooledTransactionHashes msg) = Some msg.
Proof.
  intros Hhashes Hsizes Hlen. destruct msg as [types sizes hashes].
  unfold DecodeBytes, decodeNewPooledTransactionHashes.
  unfold encodeNewPooledTransactionHashes in *. simpl in *.
  set (e1 := encodeBytes types) in *.
  set (e2 := encodeList (map encodeUint sizes)) in *.
  set (e3 := encodeList (map encodeByteArray hashes)) in *.
  pose proof (RLPFacts.length_encodeList [e1; e2; e3]) as Hle.
  pose proof (RLPFacts.length_encodeList (map encodeUint sizes)) as Hle2.
  pose proof (RLPFacts.length_encodeList (map encodeByteArray hashes)) as Hle3.
  fold e2 in Hle2. fold e3 in Hle3.
  assert (Hcontent : length (concat [e1; e2; e3]) =
                     (length e1 + (length e2 + length e3))%nat).
  { simpl. rewrite !length_app. simpl. lia. }
  assert (Htypes : (length types <= length e1)%nat).
  { subst e1. unfold encodeBytes.
    destruct types as [|b0 [|b1 ts]]; try (rewrite length_app; lia).
    destruct (_ <=? _)%N; [simpl; lia | rewrite length_app; lia]. }
  unfold decodeStruct, encodeList at 1.
  rewrite <- (app_nil_r (concat _)) at 2.
  rewrite RLPFacts.enterList_puthead by lia. simpl.
  subst e1. rewrite RLPFacts.decodeByteSlice_encodeBytes by lia. simpl.
  subst e2.
  rewrite (RLPFacts.decodeListSlice_encodeList (decodeUint 32) encodeUint)
    by (try apply sizes_decodable; try assumption; lia).
  simpl. subst e3.
  rewrite (RLPFacts.decodeListSlice_encodeList decodeHash encodeByteArray)
    by (try apply hashes_decodable; try assumption; lia).
  reflexivity.
Qed.

(** C8: under code 24 [Conn.Read] tries the typed shape first and the
    legacy shape only when the typed decoder fails.  A frame that carries
    the encoding of a bare list of hashes is refused by the typed decoder
    and comes out as the legacy variant; a frame that carries the encoding
    of a typed announcement comes out as the typed variant. *)
Theorem Read_pooled_hashes_fallback rest :
  (forall rawData msg,
     DecodeBytes decodeNewPooledTransactionHashes rawData = Some msg ->
     Read (mkConn (readFrame 24 rawData :: rest)) =
     Some (MsgNewPooledTransactionHashes msg, mkConn rest)) /\
  (forall rawData hashes,
     DecodeBytes decodeNewPooledTransactionHashes rawData = None ->
     DecodeBytes decodeNewPooledTransactionHashes66 rawData = Some hashes ->
     Read (mkConn (readFrame 24 rawData :: rest)) =
     Some (MsgNewPooledTransactionHashes66 hashes, mkConn rest)) /\
  (forall hashes : NewPooledTransactionHashes66,
     Forall (fun h => length h = 32%nat) hashes ->
     (N.of_nat (length (encodeNewPooledTransactionHashes66 hashes)) < 2 ^ 64)%N ->
     DecodeBytes decodeNewPooledTransactionHashes
       (encodeNewPooledTransactionHashes66 hashes) = None /\
     Read (mkConn (readFrame 24 (encodeNewPooledTransactionHashes66 hashes)
                     :: rest)) =
     Some (MsgNewPooledTransactionHashes66 hashes, mkConn rest)) /\
  (forall msg : NewPooledTransactionHashes,
     Forall (fun h => length h = 32%nat) (Hashes msg) ->
     Forall (fun n => (n < 2 ^ 32)%N) (Sizes msg) ->
     (N.of_nat (length (encodeNewPooledTransactionHashes msg)) < 2 ^ 64)%N ->
     Read (mkConn (readFrame 24 (encodeNewPooledTransactionHashes msg) :: rest)) =
     Some (MsgNewPooledTransactionHashes msg, mkConn rest)).
Proof.
  assert (Htyped : forall rawData msg,
    DecodeBytes decodeNewPooledTransactionHashes rawData = Some msg ->
    Read (mkConn (readFrame 24 rawData :: rest)) =
    Some (MsgNewPooledTransactionHashes msg, mkConn rest)).
  { intros rawData msg Hdec. unfold Read. simpl.
    unfold readFrameMessage. simpl. rewrite Hdec. reflexivity. }
  assert (Hlegacy : forall rawData hashes,
    DecodeBytes decodeNewPooledTransactionHashes rawData = None ->
    DecodeBytes decodeNewPooledTransactionHashes66 rawData = Some hashes ->
    Read (mkConn (readFrame 24 rawData :: rest)) =
    Some (MsgNewPooledTransactionHashes66 hashes, mkConn rest)).
  { intros rawData hashes Hno Hdec. unfold Read. simpl.
    unfold readFrameMessage. simpl. rewrite Hno.
    unfold decodeInto. rewrite Hdec. reflexivity. }
  repeat split; try assumption.
  - apply decode_typed_rejects_legacy; assumption.
  - apply Hlegacy;
      [apply decode_typed_rejects_legacy | apply decode_legacy_hashes];
      assumption.
  - intros msg Hhashes Hsizes Hlen.
    apply Htyped, decode_typed_hashes; assumption.
Qed.

(** *** Further properties of the codec *)

(** Under code 1 the list of reasons is tried first, and the single
    reason only when the list does not decode. *)
Theorem Read_disconnect_order rest :
  (forall rawData reasons,
     DecodeBytes decodeDisconnects rawData = Some reasons ->
     Read (mkConn (readFrame 1 rawData :: rest)) =
     Some (MsgDisconnects reasons, mkConn rest)) /\
  (forall rawData reason,
     DecodeBytes decodeDisconnects rawData = None ->
     DecodeBytes decodeDisconnect rawData = Some reason ->
     Read (mkConn (readFrame 1 rawData :: rest)) =
     Some (MsgDisconnect reason, mkConn rest)).
Proof.
  split; intros rawData x Hfirst; unfold Read; simpl;
    unfold readFrameMessage; simpl; rewrite Hfirst; unfold decodeInto.
  - rewrite Hfirst. reflexivity.
  - intros ->. reflexivity.
Qed.

(** A failed read ends [ReadSnap] with the read error, whatever time is
    left. *)
Theorem ReadSnap_read_error timeout clock id pre rest :
  Forall passedOver pre ->
  (forall j, (1 <= j <= S (length pre))%nat -> waiting timeout clock j) ->
  ReadSnap timeout clock (mkConn (pre ++ readError :: rest)) id =
  Some (inr errRead, mkConn rest).
Proof.
  intros Hpre Hwait. unfold ReadSnap. simpl.
  rewrite (readSnapLoop_passes_over _ _ _ _ Hpre)
    by (intros j Hj; apply Hwait; lia).
  pose proof (Hwait (S (length pre)) ltac:(lia)) as Hk. unfold waiting in Hk.
  simpl. rewrite respId_differs. simpl.
  destruct (Z.ltb_spec (Since (clock (S (length pre))) (clock O)) timeout);
    [reflexivity | lia].
Qed.

End Codec.

Lemma Code_matches_wire_table_witness :
  Code (MsgNewPooledTransactionHashes66 (P := rawPackets) []) = 24.
Proof.
  apply (Code_matches_wire_table
           (MsgNewPooledTransactionHashes66 (P := rawPackets) [])
           pooled_tx_hashes_legacy).
  reflexivity.
Defined.

(** *** Examples on the packets of [rawPackets] *)

Lemma Read_error_message_witness :
  (exists e,
     Read (mkConn [readFrame 24 [x01]]) = Some (MsgError e, mkConn [])) /\
  (exists e,
     Read (mkConn [readFrame 99 [xc0]]) = Some (MsgError e, mkConn [])).
Proof.
  split.
  - destruct (Read_error_message 24 [x01] []) as (m & Hread & _ & Hfail).
    destruct Hfail as (e & -> & _).
    + reflexivity.
    + repeat constructor.
    + exists e. exact Hread.
  - destruct (Read_error_message 99 [xc0] []) as (m & Hread & Hcode & _).
    destruct Hcode as (e & -> & _).
    + reflexivity.
    + exists e. exact Hread.
Defined.

Lemma Read_pooled_hashes_fallback_witness :
  Read (mkConn [readFrame 24
                  (encodeNewPooledTransactionHashes66 [hashOf x11; hashOf x22])])
  = Some (MsgNewPooledTransactionHashes66 [hashOf x11; hashOf x22], mkConn [])
  /\
  Read (mkConn [readFrame 24
                  (encodeNewPooledTransactionHashes
                     (mkNewPooledTransactionHashes [x02] [100%N] [hashOf x33]))])
  = Some (MsgNewPooledTransactionHashes
            (mkNewPooledTransactionHashes [x02] [100%N] [hashOf x33]),
          mkConn []).
Proof.
  destruct (Read_pooled_hashes_fallback []) as (_ & _ & Hlegacy & Htyped).
  split.
  - apply Hlegacy.
    + repeat constructor.
    + vm_compute. reflexivity.
  - apply Htyped.
    + repeat constructor.
    + repeat constructor.
    + vm_compute. reflexivity.
Defined.

Lemma ReadSnap_first_state_sync_frame_witness :
  ReadSnap (10 * Second) sampleClock
    (mkConn [readFrame 16 []; readFrame 99 [x01]; readFrame 34 [xc1; x07];
             readFrame 34 [xc1; x05]]) 5
  = Some (inl (MsgAccountRange (7%N, [])), mkConn [readFrame 34 [xc1; x05]])
  /\
  ReadSnap (10 * Second) (fun k => Z.of_nat k * 4 * Second)
    (mkConn [readFrame 16 []; readFrame 99 [x01]; readFrame 34 [xc1; x07]]) 5
  = Some (inr errTimedOut, mkConn [readFrame 34 [xc1; x07]]).
Proof.
  split.
  - refine (proj1 (ReadSnap_first_state_sync_frame (10 * Second) sampleClock 5
                     [readFrame 16 []; readFrame 99 [x01]]
                     [readFrame 34 [xc1; x05]] _ _)
              34 [xc1; x07] AccountRangePacket (7%N, []) _ _ _).
    + repeat constructor.
    + intros j Hj. simpl in Hj.
      assert (Hcases : j = 1%nat \/ j = 2%nat) by lia.
      destruct Hcases as [-> | ->]; vm_compute; reflexivity.
    + vm_compute. reflexivity.
    + reflexivity.
    + reflexivity.
  - refine (proj2 (ReadSnap_first_state_sync_frame (10 * Second)
                     (fun k => Z.of_nat k * 4 * Second) 5
                     [readFrame 16 []; readFrame 99 [x01]]
                     [readFrame 34 [xc1; x07]] _ _) _).
    + repeat constructor.
    + intros j Hj. simpl in Hj.
      assert (Hcases : j = 1%nat \/ j = 2%nat) by lia.
      destruct Hcases as [-> | ->]; vm_compute; reflexivity.
    + vm_compute. discriminate.
Defined.

Lemma ReadSnap_read_error_witness :
  ReadSnap (10 * Second) sampleClock
    (mkConn [readFrame 16 []; readError; readFrame 34 [xc1; x05]]) 5
  = Some (inr errRead, mkConn [readFrame 34 [xc1; x05]]).
Proof.
  apply (ReadSnap_read_error (10 * Second) sampleClock 5 [readFrame 16 []]
           [readFrame 34 [xc1; x05]]).
  - repeat constructor.
  - intros j Hj. simpl in Hj.
    assert (Hcases : j = 1%nat \/ j = 2%nat) by lia.
    destruct Hcases as [-> | ->]; vm_compute; reflexivity.
Defined.

Lemma ReadSnap_decode_error_witness :
  ReadSnap (10 * Second) sampleClock
    (mkConn [readFrame 16 []; readFrame 34 [xc1; x00]; readFrame 34 [xc1; x05]]) 5
  = Some (inr errDecode, mkConn [readFrame 34 [xc1; x05]]).
Proof.
  apply (ReadSnap_decode_error (10 * Second) sampleClock 5 [readFrame 16 []]
           34 [xc1; x00] [readFrame 34 [xc1; x05]] AccountRangePacket).
  - repeat constructor.
  - intros j Hj. simpl in Hj.
    assert (Hcases : j = 1%nat \/ j = 2%nat) by lia.
    destruct Hcases as [-> | ->]; vm_compute; reflexivity.
  - reflexivity.
  - reflexivity.
Defined.

End P2PSpec.

(** * Further properties *)

(** ** The crawler *)

Module CrawlProps.
Import Go Crawl CrawlSpec.
Local Open Scope Z_scope.

(** The record [updateNode] stores after a failed resolver query. *)
Definition failedRecord (w : World) (x : NodeJSON) : NodeJSON :=
  set_Score (int_quo (Score x) 2) (set_LastCheck (truncNow w) x).

(** The record [updateNode] stores after the resolver answered [nn]. *)
Definition answeredRecord (w : World) (nn : Node) (x : NodeJSON) : NodeJSON :=
  {| Seq := node_Seq nn; N' := Some nn; Score := int_incr (Score x);
     FirstResponse :=
       if IsZero (FirstResponse x) then truncNow w else FirstResponse x;
     LastResponse := truncNow w;
     LastCheck := truncNow w |}.

(** The three time stamps of a record in the order they are taken. *)
Definition ordered (x : NodeJSON) : Prop :=
  FirstResponse x <= LastResponse x <= LastCheck x.

(** A call whose node passes both checks and whose resolver query
    fails. *)
Definition failingCall (networkID : Z) (n : Node) (c : crawler) (w : World)
  : Prop :=
  checkDue w c n /\ compatible networkID w n /\ RequestENR w n = None.

(** Every call of a run on one node is a failing call. *)
Fixpoint failingCalls (networkID : Z) (n : Node) (c : crawler) (ws : list World)
  : Prop :=
  match ws with
  | [] => True
  | w :: rest =>
      failingCall networkID n c w /\
      failingCalls networkID n (snd (io_value (updateNode networkID w c n))) rest
  end.

Lemma io_trace_bind {A B} (m : IO A) (k : A -> IO B) :
  io_trace (io_bind m k) = io_trace m ++ io_trace (k (io_value m)).
Proof.
  unfold io_trace, io_value, io_bind. destruct m as [a t1]. simpl.
  destruct (k a) as [b t2]. reflexivity.
Qed.

(** What [updateNode] returns, case by case. *)
Lemma updateNode_cases networkID w c n :
  let r := io_value (updateNode networkID w c n) in
  (r = (nodeSkipRecent, c) /\ is_Some (output c !! node_ID n)) \/
  r = (nodeSkipIncompat, c) \/
  (RequestENR w n = None /\ Score (prior c n) <> 0 /\
   r = storeNode c n (failedRecord w (prior c n)) nodeUpdated) \/
  (exists nn, RequestENR w n = Some nn /\
   r = storeNode c n (answeredRecord w nn (prior c n))
         (if IsZero (FirstResponse (prior c n)) then nodeAdded else nodeUpdated)).
Proof.
  intros r. subst r. rewrite updateNode_examine_store.
  unfold examineNode, prior.
  destruct (mapIndex (output c) (node_ID n)) as [node ok] eqn:Hidx. simpl.
  destruct (ok && _) eqn:Hrecent.
  - left. split; [reflexivity|].
    apply andb_true_iff in Hrecent as [Hok _]. subst ok.
    unfold mapIndex in Hidx.
    destruct (output c !! node_ID n); [eauto | discriminate].
  - rewrite io_value_bind.
    destruct (io_value (shouldSkipNode networkID w n)); [right; left; reflexivity|].
    destruct (RequestENR w n) as [nn|] eqn:Henr.
    + right. right. right. exists nn. split; [reflexivity|].
      rewrite (requestRecord_success _ _ _ _ Henr). reflexivity.
    + rewrite (requestRecord_failure _ _ _ Henr). simpl.
      destruct (Z.eqb_spec (Score node) 0) as [Hz|Hnz].
      * right. left. reflexivity.
      * right. right. left. repeat split; try assumption.
Qed.

Lemma prior_absent_zero c n :
  output c !! node_ID n = None -> prior c n = zeroNodeJSON.
Proof. apply prior_missing. Qed.

Lemma prior_present c n :
  prior c n <> zeroNodeJSON -> is_Some (output c !! node_ID n).
Proof.
  intros Hne. destruct (output c !! node_ID n) eqn:Hx; [eauto|].
  rewrite (prior_missing _ _ Hx) in Hne. contradiction.
Qed.

(** The status says what happened to the output set.  The two skips
    leave the crawler as it was.  [nodeRemoved] is returned only for a
    node that was in the set, and its entry is gone.  [nodeUpdated] is
    returned only for a node that was in the set, [nodeAdded] only after
    the resolver answered a node that never responded before; in both
    cases the entry now holds a record with a positive score whose last
    check is the truncated time of this call. *)
Theorem updateNode_status_sound networkID w c n :
  let st := fst (io_value (updateNode networkID w c n)) in
  let c' := snd (io_value (updateNode networkID w c n)) in
  let stored :=
    exists rec, output c' = <[node_ID n := rec]> (output c) /\
                0 < Score rec /\ LastCheck rec = truncNow w in
  match st with
  | nodeSkipRecent | nodeSkipIncompat => c' = c
  | nodeRemoved =>
      is_Some (output c !! node_ID n) /\
      output c' = delete (node_ID n) (output c)
  | nodeAdded =>
      is_Some (RequestENR w n) /\
      IsZero (FirstResponse (prior c n)) = true /\ stored
  | nodeUpdated => is_Some (output c !! node_ID n) /\ stored
  end.
Proof.
  cbv zeta.
  destruct (updateNode_cases networkID w c n)
    as [[-> _]|[->|[(Herr & Hnz & ->)|(nn & Hok & ->)]]];
    try reflexivity.
  - assert (Hin : is_Some (output c !! node_ID n)).
    { apply prior_present. intros Hz. rewrite Hz in Hnz. apply Hnz. reflexivity. }
    unfold storeNode.
    destruct (Z.leb_spec (Score (failedRecord w (prior c n))) 0); simpl.
    + split; [exact Hin | reflexivity].
    + split; [exact Hin|]. eexists. split; [reflexivity|]. split; [lia|reflexivity].
  - unfold storeNode.
    destruct (Z.leb_spec (Score (answeredRecord w nn (prior c n))) 0) as [Hle|Hgt];
      simpl.
    + split; [|reflexivity]. apply prior_present. intros Hz.
      rewrite Hz in Hle. vm_compute in Hle. apply Hle. reflexivity.
    + destruct (IsZero (FirstResponse (prior c n))) eqn:Hfirst; simpl.
      * split; [eauto|]. split; [reflexivity|].
        eexists. split; [reflexivity|]. split; [exact Hgt | reflexivity].
      * split.
        { apply prior_present. intros Hz. rewrite Hz in Hfirst. discriminate. }
        eexists. split; [reflexivity|]. split; [exact Hgt | reflexivity].
Qed.

(** [shouldSkipNode] lets a node pass exactly when no network id is
    configured, or the dial and the handshake succeed and the peer's
    status carries the configured network id.  It dials at most once, and
    a connection it got is closed whatever the handshake gave. *)
Theorem shouldSkipNode_spec networkID w n :
  (io_value (shouldSkipNode networkID w n) = false <->
   networkID = 0 \/
   exists conn st, Dial w n = Some conn /\ Peer w conn = Some st /\
                   NetworkID st = networkID) /\
  io_trace (shouldSkipNode networkID w n) =
    (if networkID =? 0 then []
     else match Dial w n with
          | None => [IoDial n]
          | Some conn => [IoDial n; IoPeer conn; IoClose conn]
          end).
Proof.
  unfold shouldSkipNode.
  destruct (Z.eqb_spec networkID 0) as [Hz|Hnz].
  - split; [|reflexivity]. split; [auto | reflexivity].
  - destruct (Dial w n) as [conn|] eqn:Hdial; simpl.
    + split; [|reflexivity].
      destruct (Peer w conn) as [st|] eqn:Hpeer; simpl.
      * destruct (Z.eqb_spec networkID (NetworkID st)) as [Heq|Hne]; simpl.
        -- split; [|reflexivity]. intros _. right. exists conn, st. auto.
        -- split; [discriminate|].
           intros [Hz|(conn' & st' & Hc & Hp & Hid)]; [contradiction|].
           injection Hc as <-. rewrite Hpeer in Hp. injection Hp as <-.
           congruence.
      * split; [discriminate|].
        intros [Hz|(conn' & st' & Hc & Hp & _)]; [contradiction|].
        injection Hc as <-. congruence.
    + split; [|reflexivity]. split; [discriminate|].
      intros [Hz|(conn' & st' & Hc & _)]; [contradiction | discriminate].
Qed.

(** The network events of one [updateNode] call: none for a node it
    skips as recently checked; otherwise those of [shouldSkipNode],
    followed by one resolver query exactly when the node was let pass. *)
Theorem updateNode_io networkID w c n :
  (fst (io_value (updateNode networkID w c n)) = nodeSkipRecent /\
   io_trace (updateNode networkID w c n) = []) \/
  (fst (io_value (updateNode networkID w c n)) <> nodeSkipRecent /\
   io_trace (updateNode networkID w c n) =
     io_trace (shouldSkipNode networkID w n) ++
     (if io_value (shouldSkipNode networkID w n) then [] else [IoRequestENR n])).
Proof.
  unfold updateNode.
  destruct (mapIndex (output c) (node_ID n)) as [node ok].
  destruct (ok && _); [left; split; reflexivity|].
  right. rewrite io_value_bind, io_trace_bind.
  destruct (io_value (shouldSkipNode networkID w n)).
  - split; [discriminate | reflexivity].
  - rewrite io_value_bind, io_trace_bind.
    assert (Htrace : io_trace (requestRecord w n (set_LastCheck (truncNow w) node))
                     = [IoRequestENR n] /\
            forall e, io_value (requestRecord w n (set_LastCheck (truncNow w) node))
                      = inl e -> e = nodeSkipIncompat).
    { unfold requestRecord. rewrite io_trace_bind, io_value_bind. simpl.
      destruct (RequestENR w n); simpl.
      - destruct (IsZero _); split; try reflexivity; discriminate.
      - destruct (_ =? 0); split; try reflexivity; try discriminate.
        intros e [= <-]. reflexivity. }
    destruct Htrace as [-> Hearly].
    destruct (io_value (requestRecord _ _ _)) as [e|[nd st]] eqn:Hreq; simpl.
    + rewrite (Hearly e eq_refl). split; [discriminate | reflexivity].
    + split; [|reflexivity].
      unfold storeNode. destruct (_ <=? 0); simpl; [discriminate|].
      clear Hearly. unfold requestRecord in Hreq.
      rewrite io_value_bind in Hreq. simpl in Hreq.
      destruct (RequestENR w n); simpl in Hreq.
      * destruct (IsZero _); injection Hreq as _ <-; discriminate.
      * destruct (_ =? 0); [discriminate|]. injection Hreq as _ <-. discriminate.
Qed.

(** [truncNow] is the start of the running second: a whole number of
    seconds, not after the clock's reading and less than a second before
    it. *)
Theorem truncNow_whole_second w :
  truncNow w mod Second = 0 /\
  truncNow w <= now_check w < truncNow w + Second.
Proof.
  unfold truncNow, Truncate, Second. simpl.
  change (1 * 1000000000) with 1000000000.
  pose proof (Z.mod_pos_bound (now_check w) 1000000000 ltac:(lia)) as Hb.
  pose proof (Z.div_mod (now_check w) 1000000000 ltac:(lia)) as Hdm.
  split; [|lia].
  replace (now_check w - now_check w mod 1000000000)
    with (now_check w / 1000000000 * 1000000000) by lia.
  apply Z.mod_mul. lia.
Qed.

(** One call touches nothing but the entry of its node. *)
Lemma updateNode_other_entries networkID w c n id :
  id <> node_ID n ->
  output (snd (io_value (updateNode networkID w c n))) !! id = output c !! id.
Proof.
  intros Hne.
  destruct (updateNode_cases networkID w c n)
    as [[-> _]|[->|[(_ & _ & ->)|(nn & _ & ->)]]]; try reflexivity;
    unfold storeNode; destruct (_ <=? 0); simpl;
    rewrite ?lookup_delete_ne, ?lookup_insert_ne by congruence; reflexivity.
Qed.

Lemma updateNode_settings networkID w c n :
  input (snd (io_value (updateNode networkID w c n))) = input c /\
  revalidateInterval (snd (io_value (updateNode networkID w c n))) =
    revalidateInterval c.
Proof.
  destruct (updateNode_cases networkID w c n)
    as [[-> _]|[->|[(_ & _ & ->)|(nn & _ & ->)]]]; try (split; reflexivity);
    unfold storeNode; destruct (_ <=? 0); split; reflexivity.
Qed.

(** A run of calls leaves the input set and the interval as they were,
    and changes no entry of the output set but those of the nodes it was
    called on. *)
Theorem updateNodes_frame networkID calls : forall c id,
  Forall (fun call => node_ID (snd call) <> id) calls ->
  input (updateNodes networkID c calls) = input c /\
  revalidateInterval (updateNodes networkID c calls) = revalidateInterval c /\
  output (updateNodes networkID c calls) !! id = output c !! id.
Proof.
  induction calls as [|[w n] calls IH]; intros c id Hcalls; simpl.
  - repeat split.
  - apply Forall_cons in Hcalls as [Hn Hrest]. simpl in Hn.
    destruct (IH (snd (io_value (updateNode networkID w c n))) id Hrest)
      as (-> & -> & ->).
    destruct (updateNode_settings networkID w c n) as [-> ->].
    rewrite updateNode_other_entries by congruence. repeat split.
Qed.

Lemma updateNodes_frame_witness :
  output (updateNodes 0
            (newCrawler {[ 7%N := sampleRecord 1 0 (100 * Second);
                           9%N := sampleRecord 4 0 (100 * Second) ]}
               (30 * Second))
            [(sampleWorld (1000 * Second) None, mkNode 7%N 1);
             (sampleWorld (2000 * Second) (Some (mkNode 8%N 1)), mkNode 8%N 1)])
    !! 9%N
  = output (newCrawler {[ 7%N := sampleRecord 1 0 (100 * Second);
                          9%N := sampleRecord 4 0 (100 * Second) ]}
              (30 * Second)) !! 9%N.
Proof.
  apply updateNodes_frame.
  repeat constructor; simpl; discriminate.
Defined.

(** The first-response time is written once: a record that has one keeps
    it through any call that leaves the record in the set. *)
Theorem updateNode_FirstResponse_kept networkID w c n id x x' :
  output c !! id = Some x ->
  IsZero (FirstResponse x) = false ->
  output (snd (io_value (updateNode networkID w c n))) !! id = Some x' ->
  FirstResponse x' = FirstResponse x.
Proof.
  intros Hx Hfirst.
  destruct (N.eq_dec id (node_ID n)) as [->|Hne];
    [|rewrite updateNode_other_entries by exact Hne; congruence].
  destruct (updateNode_cases networkID w c n)
    as [[-> _]|[->|[(_ & _ & ->)|(nn & _ & ->)]]]; simpl;
    try congruence;
    rewrite (prior_lookup _ _ _ Hx);
    unfold storeNode; destruct (_ <=? 0); simpl;
    rewrite ?lookup_delete_eq, ?lookup_insert_eq; try discriminate;
    intros [= <-]; simpl; [reflexivity|].
  rewrite Hfirst. reflexivity.
Qed.

Lemma updateNode_FirstResponse_kept_witness :
  exists x',
    output (snd (io_value
      (updateNode 0 (sampleWorld (1000 * Second) (Some (mkNode 7%N 2)))
         (sampleCrawler (sampleRecord 1 (50 * Second) (100 * Second)))
         (mkNode 7%N 1)))) !! 7%N = Some x' /\
    LastCheck x' = 1000 * Second /\
    FirstResponse x' = 50 * Second.
Proof.
  eexists. split; [vm_compute; reflexivity|]. split; [reflexivity|].
  apply (updateNode_FirstResponse_kept 0
           (sampleWorld (1000 * Second) (Some (mkNode 7%N 2)))
           (sampleCrawler (sampleRecord 1 (50 * Second) (100 * Second)))
           (mkNode 7%N 1) 7%N (sampleRecord 1 (50 * Second) (100 * Second))).
  - vm_compute. reflexivity.
  - reflexivity.
  - vm_compute. reflexivity.
Defined.

(** If in every record first response, last response and last check
    follow each other in time, and the clock is not behind the node's
    last check, the same holds after the call. *)
Theorem updateNode_timestamps_ordered networkID w c n :
  map_Forall (fun _ x => ordered x) (output c) ->
  LastCheck (prior c n) <= truncNow w ->
  map_Forall (fun _ x => ordered x)
    (output (snd (io_value (updateNode networkID w c n)))).
Proof.
  intros Hall Hclock.
  assert (Hprior : ordered (prior c n)).
  { unfold prior, mapIndex.
    destruct (output c !! node_ID n) as [x|] eqn:Hx; simpl.
    - exact (Hall _ _ Hx).
    - unfold ordered. simpl. lia. }
  unfold ordered in Hprior.
  destruct (updateNode_cases networkID w c n)
    as [[-> _]|[->|[(_ & _ & ->)|(nn & _ & ->)]]]; try exact Hall;
    unfold storeNode; destruct (_ <=? 0); simpl;
    try (apply map_Forall_delete; exact Hall);
    apply map_Forall_insert_2; try exact Hall; unfold ordered; simpl.
  - lia.
  - destruct (IsZero (FirstResponse (prior c n))); lia.
Qed.

Lemma updateNode_timestamps_ordered_witness :
  map_Forall (fun _ x => ordered x)
    (output (snd (io_value
       (updateNode 0 (sampleWorld (1000 * Second) (Some (mkNode 7%N 2)))
          (sampleCrawler (sampleRecord 1 (50 * Second) (100 * Second)))
          (mkNode 7%N 1))))).
Proof.
  apply updateNode_timestamps_ordered.
  - unfold sampleCrawler. rewrite newCrawler_output.
    apply map_Forall_singleton. vm_compute. split; discriminate.
  - vm_compute. discriminate.
Defined.

(** One failed check of a node that is in the set with a positive
    score. *)
Lemma failingCall_step networkID n c w x :
  failingCall networkID n c w ->
  output c !! node_ID n = Some x -> 0 < Score x ->
  output (snd (io_value (updateNode networkID w c n))) !! node_ID n =
  if Score x / 2 <=? 0 then None else Some (failedRecord w x).
Proof.
  intros (Hdue & Hcompat & Herr) Hx Hpos.
  rewrite (updateNode_checked _ _ _ _ Hdue Hcompat).
  rewrite (requestRecord_failure _ _ _ Herr).
  rewrite (prior_lookup _ _ _ Hx). simpl.
  destruct (Z.eqb_spec (Score x) 0); [lia|].
  rewrite <- (Z.quot_div_nonneg (Score x) 2) by lia.
  unfold storeNode. simpl. unfold int_quo.
  destruct (Score x ÷ 2 <=? 0); simpl.
  - apply lookup_delete_eq.
  - apply lookup_insert_eq.
Qed.

(** Failed checks of a node that is not in the set do not put it
    there. *)
Lemma failingCalls_absent networkID n ws : forall c,
  output c !! node_ID n = None ->
  failingCalls networkID n c ws ->
  output (updateNodes networkID c (map (fun w => (w, n)) ws)) !! node_ID n = None.
Proof.
  induction ws as [|w ws IH]; intros c Hx Hcalls; simpl; [exact Hx|].
  destruct Hcalls as [(Hdue & Hcompat & Herr) Hrest].
  assert (Hsame : snd (io_value (updateNode networkID w c n)) = c).
  { rewrite (updateNode_checked _ _ _ _ Hdue Hcompat).
    rewrite (requestRecord_failure _ _ _ Herr).
    rewrite (prior_missing _ _ Hx). reflexivity. }
  rewrite Hsame in *. apply IH; assumption.
Qed.

(** Failed checks in a row halve the score each time: after [k] of them a
    node that had score [s > 0] has score [s / 2^k], and it is out of the
    set as soon as that is 0, which is after [log2 s + 1] failed
    checks. *)
Theorem failed_checks_halve networkID n ws : forall c x,
  output c !! node_ID n = Some x -> 0 < Score x ->
  failingCalls networkID n c ws ->
  let after :=
    output (updateNodes networkID c (map (fun w => (w, n)) ws)) !! node_ID n in
  let s := Score x / 2 ^ Z.of_nat (length ws) in
  (0 < s -> Score <$> after = Some s) /\
  (Z.log2 (Score x) < Z.of_nat (length ws) -> after = None).
Proof.
  induction ws as [|w ws IH]; intros c x Hx Hpos Hcalls; cbv zeta.
  - simpl. rewrite Z.div_1_r, Hx. split; [reflexivity|].
    pose proof (Z.log2_nonneg (Score x)). lia.
  - destruct Hcalls as [Hcall Hrest].
    pose proof (failingCall_step _ _ _ _ _ Hcall Hx Hpos) as Hstep.
    cbn [map length updateNodes io_value snd].
    rewrite Nat2Z.inj_succ, Z.pow_succ_r by lia.
    rewrite <- Z.div_div by lia.
    destruct (Z.leb_spec (Score x / 2) 0) as [Hzero|Hhalf].
    + assert (Hz : Score x / 2 = 0).
      { pose proof (Z.div_pos (Score x) 2 ltac:(lia) ltac:(lia)). lia. }
      rewrite Hz, Z.div_0_l by lia.
      split; [lia|]. intros _.
      apply failingCalls_absent; assumption.
    + assert (Hscore : Score (failedRecord w x) = Score x / 2).
      { simpl. unfold int_quo. apply Z.quot_div_nonneg; lia. }
      assert (Hhalf' : 0 < Score (failedRecord w x)) by lia.
      specialize (IH _ _ Hstep Hhalf' Hrest). cbv zeta in IH.
      rewrite Hscore in IH.
      destruct IH as [IHpos IHgone]. split; [exact IHpos|].
      intros Hlog. apply IHgone.
      assert (Hl : Z.log2 (Score x) = Z.succ (Z.log2 (Score x / 2))).
      { assert (Hshift : Score x / 2 = Z.shiftr (Score x) 1)
          by (rewrite Z.shiftr_div_pow2 by lia; reflexivity).
        assert (Htwo : 2 <= Score x).
        { destruct (Z.lt_ge_cases (Score x) 2) as [Hlt|Hge]; [|exact Hge].
          rewrite Z.div_small in Hhalf by lia. lia. }
        rewrite Hshift, Z.log2_shiftr by lia.
        pose proof (Z.log2_pos (Score x) ltac:(lia)). lia. }
      lia.
Qed.

Lemma failed_checks_halve_witness :
  output (updateNodes 0 (sampleCrawler (sampleRecord 5 0 (100 * Second)))
            (map (fun w => (w, mkNode 7%N 1))
               [sampleWorld (1000 * Second) None;
                sampleWorld (2000 * Second) None;
                sampleWorld (3000 * Second) None])) !! 7%N = None.
Proof.
  refine (proj2 (failed_checks_halve 0 (mkNode 7%N 1)
                   [sampleWorld (1000 * Second) None;
                    sampleWorld (2000 * Second) None;
                    sampleWorld (3000 * Second) None]
                   (sampleCrawler (sampleRecord 5 0 (100 * Second)))
                   (sampleRecord 5 0 (100 * Second)) _ _ _) _).
  - vm_compute. reflexivity.
  - vm_compute. reflexivity.
  - simpl. repeat split;
      try (intros node Hnode; vm_compute in Hnode; injection Hnode as <-;
           vm_compute; discriminate).
  - vm_compute. reflexivity.
Defined.

End CrawlProps.

(** ** [run] *)

Module RunProps.
Import Go Crawl CrawlSpec CrawlProps CrawlRun.
Local Open Scope Z_scope.

Definition total (k : counters) : Z :=
  added k + updated k + skipped k + recent k + removed k.

Definition nonnegative (k : counters) : Prop :=
  0 <= added k /\ 0 <= updated k /\ 0 <= skipped k /\ 0 <= recent k /\
  0 <= removed k.

(** How many times [doneCh] delivered among the events. *)
Fixpoint doneCount (rs : list received) : nat :=
  match rs with
  | [] => O
  | fromDoneCh _ :: rest => S (doneCount rest)
  | _ :: rest => doneCount rest
  end.

Lemma size_delete_present (m : NodeSet) id :
  is_Some (m !! id) -> S (size (delete id m)) = size m.
Proof.
  intros [x Hx]. rewrite <- (insert_delete_id m id x Hx) at 2.
  rewrite map_size_insert_None by apply lookup_delete_eq. reflexivity.
Qed.

Lemma size_insert_present (m : NodeSet) id x :
  is_Some (m !! id) -> size (<[id := x]> m) = size m.
Proof. intros [y Hy]. rewrite map_size_insert, Hy. reflexivity. Qed.

Lemma size_insert_bounds (m : NodeSet) id x :
  (size m <= size (<[id := x]> m) <= S (size m))%nat.
Proof. rewrite map_size_insert. destruct (m !! id); simpl; lia. Qed.

Lemma prior_present_score c n :
  Score (prior c n) <> 0 -> is_Some (output c !! node_ID n).
Proof.
  intros Hnz. apply prior_present. intros Hz. rewrite Hz in Hnz.
  apply Hnz. reflexivity.
Qed.

(** What one call does to the number of entries, by its status. *)
Lemma updateNode_size networkID w c n :
  let st := fst (io_value (updateNode networkID w c n)) in
  let after := size (output (snd (io_value (updateNode networkID w c n)))) in
  match st with
  | nodeRemoved => S after = size (output c)
  | nodeAdded => (size (output c) <= after <= S (size (output c)))%nat
  | _ => after = size (output c)
  end.
Proof.
  cbv zeta.
  destruct (updateNode_cases networkID w c n)
    as [[-> _]|[->|[(Herr & Hnz & ->)|(nn & Hok & ->)]]];
    try reflexivity.
  - pose proof (prior_present_score _ _ Hnz) as Hin.
    unfold storeNode. destruct (_ <=? 0); simpl.
    + apply size_delete_present, Hin.
    + apply size_insert_present, Hin.
  - unfold storeNode.
    destruct (Z.leb_spec (Score (answeredRecord w nn (prior c n))) 0) as [Hle|Hgt];
      simpl.
    + apply size_delete_present, prior_present. intros Hz.
      rewrite Hz in Hle. vm_compute in Hle. apply Hle. reflexivity.
    + destruct (IsZero (FirstResponse (prior c n))) eqn:Hfirst; simpl.
      * apply size_insert_bounds.
      * apply size_insert_present, prior_present. intros Hz.
        rewrite Hz in Hfirst. discriminate.
Qed.

Lemma AddUint64_1 x : 0 <= x -> x + 1 < 2 ^ 64 -> AddUint64 x 1 = x + 1.
Proof.
  intros Hx Hlt. unfold AddUint64, wrap_uint64. apply Z.mod_small. lia.
Qed.

Lemma count_total st k :
  nonnegative k -> total k + 1 < 2 ^ 64 ->
  nonnegative (count st k) /\ total (count st k) = total k + 1 /\
  added (count st k) = added k + (if st is nodeAdded then 1 else 0) /\
  removed (count st k) = removed k + (if st is nodeRemoved then 1 else 0).
Proof.
  unfold nonnegative, total. intros (Ha & Hu & Hs & Hr & Hd) Hlt.
  destruct st; simpl; rewrite AddUint64_1 by lia; repeat split; lia.
Qed.

Lemma worker_invariant networkID received : forall c k,
  nonnegative k -> total k + Z.of_nat (length received) < 2 ^ 64 ->
  let c' := fst (worker networkID c k received) in
  let k' := snd (worker networkID c k received) in
  nonnegative k' /\
  total k' = total k + Z.of_nat (length received) /\
  added k <= added k' /\ removed k <= removed k' /\
  Z.of_nat (size (output c)) - (removed k' - removed k)
    <= Z.of_nat (size (output c'))
    <= Z.of_nat (size (output c)) - (removed k' - removed k)
       + (added k' - added k).
Proof.
  induction received as [|[w n] rest IH]; intros c k Hk Hlt; cbv zeta.
  - simpl. repeat split; try apply Hk; lia.
  - cbn [worker length] in *. rewrite Nat2Z.inj_succ in Hlt.
    pose proof (updateNode_size networkID w c n) as Hsize. cbv zeta in Hsize.
    destruct (io_value (updateNode networkID w c n)) as [st c1]. simpl in Hsize.
    destruct (count_total st k Hk ltac:(lia)) as (Hk1 & Htot & Hadd & Hrem).
    specialize (IH c1 (count st k) Hk1 ltac:(lia)). cbv zeta in IH.
    destruct IH as (Hk' & Htot' & Ha' & Hr' & Hlo & Hhi).
    rewrite Nat2Z.inj_succ.
    split; [exact Hk'|]. split; [lia|].
    destruct st; simpl in *; repeat split; lia.
Qed.

(** The counters of a worker account for what happened.  Every received
    node raises exactly one counter.  The output set loses an entry only
    with a [removed] count and gains one only with an [added] count: its
    size ends between the old size less [removed] and that plus
    [added]. *)
Theorem worker_accounting networkID c received :
  Z.of_nat (length received) < 2 ^ 64 ->
  let c' := fst (worker networkID c noCounts received) in
  let k := snd (worker networkID c noCounts received) in
  added k + updated k + skipped k + recent k + removed k =
    Z.of_nat (length received) /\
  Z.of_nat (size (output c)) - removed k
    <= Z.of_nat (size (output c'))
    <= Z.of_nat (size (output c)) - removed k + added k.
Proof.
  intros Hlen.
  pose proof (worker_invariant networkID received c noCounts) as Hinv.
  cbv zeta in *. unfold nonnegative, total in Hinv. simpl in Hinv.
  destruct Hinv as (_ & Htot & _ & _ & Hsize); [lia | lia |].
  split; [lia|]. lia.
Qed.

Lemma worker_accounting_witness :
  let r := worker 0 (sampleCrawler (sampleRecord 1 0 (100 * Second))) noCounts
             [(sampleWorld (1000 * Second) None, mkNode 7%N 1);
              (sampleWorld (1000 * Second) (Some (mkNode 8%N 1)), mkNode 8%N 1);
              (sampleWorld (1001 * Second) None, mkNode 8%N 1)] in
  added (snd r) + updated (snd r) + skipped (snd r) + recent (snd r)
    + removed (snd r) = 3 /\
  1 - removed (snd r) <= Z.of_nat (size (output (fst r)))
    <= 1 - removed (snd r) + added (snd r).
Proof.
  cbv zeta.
  pose proof (worker_accounting 0 (sampleCrawler (sampleRecord 1 0 (100 * Second)))
    [(sampleWorld (1000 * Second) None, mkNode 7%N 1);
     (sampleWorld (1000 * Second) (Some (mkNode 8%N 1)), mkNode 8%N 1);
     (sampleWorld (1001 * Second) None, mkNode 8%N 1)]
    ltac:(vm_compute; reflexivity)) as Hacc.
  cbv zeta in Hacc.
  replace (Z.of_nat
             (size (output (sampleCrawler (sampleRecord 1 0 (100 * Second))))))
    with 1 in Hacc by (vm_compute; reflexivity).
  exact Hacc.
Defined.

(** *** The control loop *)

Lemma doneCount_app rs1 rs2 :
  doneCount (rs1 ++ rs2) = (doneCount rs1 + doneCount rs2)%nat.
Proof.
  induction rs1 as [|[it| |] rs1 IH]; simpl; rewrite ?IH; reflexivity.
Qed.

Lemma controlLoop_inv timeout inputIter rs : forall s s' rest,
  1 <= liveIters s <= max_int64 ->
  controlLoop timeout inputIter s rs = Some (s', rest) ->
  exists consumed,
    rs = consumed ++ rest /\
    0 <= liveIters s' /\
    liveIters s' = liveIters s - Z.of_nat (doneCount consumed) /\
    (liveIters s' = 0 \/
     exists before,
       consumed = before ++ [fromTimeoutCh] /\
       (timeoutCh s = true \/
        (0 < timeout /\ In (fromDoneCh inputIter) before))).
Proof.
  induction rs as [|r rs IH]; intros s s' rest Hlive Hloop; [discriminate|].
  cbn [controlLoop] in Hloop.
  destruct r as [it| |]; cbn [selectOnce] in Hloop.
  - assert (Hdec : wrap_int64 (liveIters s - 1) = liveIters s - 1).
    { apply wrap_int64_small. unfold min_int64, max_int64 in *. lia. }
    rewrite Hdec in Hloop.
    destruct (Z.eqb_spec (liveIters s - 1) 0) as [Hz|Hnz].
    + injection Hloop as <- <-. exists [fromDoneCh it]. simpl.
      split; [reflexivity|split; [lia|split; [lia|]]]. left. exact Hz.
    + apply IH in Hloop; [|simpl; lia].
      destruct Hloop as (consumed & -> & Hpos & Hcount & Hwhy).
      exists (fromDoneCh it :: consumed). simpl in *.
      split; [reflexivity|split; [lia|split; [lia|]]].
      destruct Hwhy as [Hz|(before & -> & Harmed)]; [left; exact Hz|].
      right. exists (fromDoneCh it :: before). split; [reflexivity|].
      destruct Harmed as [Hch|[Ht Hin]]; [|right; split; [exact Ht | right; exact Hin]].
      destruct (Nat.eqb_spec it inputIter) as [->|Hne]; [|left; exact Hch].
      destruct (Z.ltb_spec 0 timeout); [|left; exact Hch].
      right. split; [assumption | left; reflexivity].
  - destruct (timeoutCh s) eqn:Hch; [|discriminate].
    injection Hloop as <- <-. exists [fromTimeoutCh]. simpl.
    split; [reflexivity|split; [lia|split; [lia|]]].
    right. exists []. split; [reflexivity | left; reflexivity].
  - apply IH in Hloop; [|exact Hlive].
    destruct Hloop as (consumed & -> & Hpos & Hcount & Hwhy).
    exists (fromStatusTicker :: consumed). simpl.
    split; [reflexivity|split; [lia|split; [lia|]]].
    destruct Hwhy as [Hz|(before & -> & Harmed)]; [left; exact Hz|].
    right. exists (fromStatusTicker :: before). split; [reflexivity|].
    destruct Harmed as [Hch|[Ht Hin]]; [left; exact Hch|].
    right. split; [exact Ht | right; exact Hin].
Qed.

(** The loop of [run] starts with [timeoutCh] nil.  It is left either
    when every iterator has reported on [doneCh], or on the timer; the
    latter only if the timeout is positive and the input set's iterator
    reported before.  With a timeout of 0 or less the loop therefore runs
    until all iterators are done. *)
Theorem controlLoop_exit timeout inputIter live rs s' rest :
  1 <= live <= max_int64 ->
  controlLoop timeout inputIter (mkControl live false) rs = Some (s', rest) ->
  liveIters s' = 0 \/
  (0 < timeout /\
   exists before after,
     rs = before ++ fromDoneCh inputIter :: after ++ fromTimeoutCh :: rest).
Proof.
  intros Hlive Hloop.
  destruct (controlLoop_inv timeout inputIter rs (mkControl live false) s'
              rest Hlive Hloop)
    as (consumed & -> & _ & _ & [Hz|(before & -> & Harmed)]); [left; exact Hz|].
  right. simpl in Harmed. destruct Harmed as [Hch|[Ht Hin]]; [discriminate|].
  split; [exact Ht|].
  apply in_split in Hin as (l1 & l2 & ->).
  exists l1, l2. clear Hloop. rewrite <- !app_assoc. simpl.
  rewrite <- ?app_assoc. reflexivity.
Qed.

Lemma controlLoop_exit_witness :
  exists before after,
    [fromStatusTicker; fromDoneCh 1; fromDoneCh 2; fromStatusTicker;
     fromTimeoutCh; fromDoneCh 0]
    = before ++ fromDoneCh 2 :: after ++ fromTimeoutCh :: [fromDoneCh 0].
Proof.
  destruct (controlLoop_exit (5 * Second) 2 3
              [fromStatusTicker; fromDoneCh 1; fromDoneCh 2; fromStatusTicker;
               fromTimeoutCh; fromDoneCh 0]
              (mkControl 1 true) [fromDoneCh 0])
    as [Hz|[_ Hsplit]].
  - vm_compute. split; discriminate.
  - reflexivity.
  - discriminate Hz.
  - exact Hsplit.
Defined.

(** However the loop is left, it and the draining loop after it receive
    from [doneCh] once for every iterator: none is waited for in vain,
    and no iterator's report is left behind. *)
Theorem run_receives_every_done timeout inputIter live rs s' rest :
  1 <= live <= max_int64 ->
  controlLoop timeout inputIter (mkControl live false) rs = Some (s', rest) ->
  exists consumed,
    rs = consumed ++ rest /\
    Z.of_nat (doneCount consumed + drained s') = live.
Proof.
  intros Hlive Hloop.
  destruct (controlLoop_inv timeout inputIter rs (mkControl live false) s'
              rest Hlive Hloop)
    as (consumed & -> & Hpos & Hcount & _).
  exists consumed. split; [reflexivity|].
  unfold drained. simpl in Hcount. rewrite Nat2Z.inj_add, Z2Nat.id by lia. lia.
Qed.

Lemma run_receives_every_done_witness :
  exists consumed,
    [fromDoneCh 1; fromDoneCh 2; fromTimeoutCh; fromDoneCh 0]
    = consumed ++ [fromDoneCh 0] /\
    Z.of_nat (doneCount consumed + drained (mkControl 1 true)) = 3.
Proof.
  apply (run_receives_every_done (5 * Second) 2 3
           [fromDoneCh 1; fromDoneCh 2; fromTimeoutCh; fromDoneCh 0]
           (mkControl 1 true) [fromDoneCh 0]).
  - vm_compute. split; discriminate.
  - reflexivity.
Defined.

End RunProps.

(** ** The codec *)

Module CodecProps.
Import Stdlib.Strings.Byte.
Import Go RLP P2P P2PWrite P2PSpec.
Local Open Scope Z_scope.

Section Reading.
Context {P : Packets}.

Lemma fmap_code {T} (wrap : T -> Message) (o : option T) (m : Message) c :
  (forall v, Code (wrap v) = c) -> wrap <$> o = Some m -> Code m = c.
Proof. intros Hwrap. destruct o; simpl; intros [= <-]. apply Hwrap. Qed.

(** A message decoded by a candidate of a code has that code. *)
Lemma firstDecoded_code c rawData m :
  firstDecoded (candidates c) rawData = Some m -> Code m = c.
Proof.
  destruct (recognized_cases c) as [Hno|Hc].
  - unfold recognized, existsb in Hno. rewrite !orb_false_iff in Hno.
    decompose [and] Hno. clear Hno.
    repeat match goal with
           | Hne : (_ =? _) = false |- _ => apply Z.eqb_neq in Hne
           end.
    destruct c as [|p|p]; try congruence; try discriminate.
    do 5 (destruct p as [p|p|]; try congruence; try discriminate).
  - repeat (destruct Hc as [Hc|Hc];
            [subst c; simpl;
             repeat match goal with
                    | |- context [DecodeBytes ?d ?r] =>
                        destruct (DecodeBytes d r); simpl
                    end;
             intros [= <-]; reflexivity|]).
    subst c; simpl.
    destruct (DecodeBytes _ rawData); simpl; intros [= <-]; reflexivity.
Qed.

(** What [Conn.Read] makes of a frame is an error message or a message
    of the frame's own code, which then is one of the control and
    chain-sync codes: [Read] never returns a state-sync message. *)
Theorem Read_code_of_frame code rawData rest :
  exists m,
    Read (mkConn (readFrame code rawData :: rest)) = Some (m, mkConn rest) /\
    (errorMessage m \/
     (Code m = int_of_uint64 code /\ recognized (int_of_uint64 code) = true)).
Proof.
  eexists. split; [reflexivity|].
  destruct (recognized (int_of_uint64 code)) eqn:Hrec.
  - rewrite (readFrameMessage_recognized _ _ Hrec).
    destruct (firstDecoded _ rawData) as [m|] eqn:Hfirst; simpl.
    + right. split; [|reflexivity]. exact (firstDecoded_code _ _ _ Hfirst).
    + left. apply errorf_errorMessage.
  - destruct (readFrameMessage_unrecognized _ rawData Hrec) as [e ->].
    left. apply errorf_errorMessage.
Qed.




Lemma readSnapLoop_any_id timeout clock start pending : forall k id id',
  readSnapLoop timeout clock start id (wrap_uint64 (id + 1)) k pending =
  readSnapLoop timeout clock start id' (wrap_uint64 (id' + 1)) k pending.
Proof.
  induction pending as [|r rest IH]; intros k id id'; simpl;
    rewrite !respId_differs; simpl; [reflexivity|].
  destruct (Since (clock k) start <? timeout); [|reflexivity].
  destruct r as [|code rawData]; [reflexivity|].
  destruct (snapDecoder code); [reflexivity|]. apply IH.
Qed.

(** The request id given to [ReadSnap] has no influence on what it
    returns. *)
Theorem ReadSnap_ignores_id timeout clock c id id' :
  ReadSnap timeout clock c id = ReadSnap timeout clock c id'.
Proof. unfold ReadSnap. apply readSnapLoop_any_id. Qed.

(** With a timeout of 0 or less, and a clock that does not run
    backwards, [ReadSnap] fails with the timeout error before it reads
    anything. *)
Theorem ReadSnap_no_time timeout clock c id :
  timeout <= 0 -> clock O <= clock 1%nat ->
  ReadSnap timeout clock c id = Some (inr errTimedOut, c).
Proof.
  intros Htimeout Hclock. unfold ReadSnap.
  assert (Hsince : 0 <= Since (clock 1%nat) (clock O)).
  { unfold Since, Sub, min_int64, max_int64.
    destruct (Z.ltb_spec (clock 1%nat - clock O) (- 2 ^ 63)); [lia|].
    destruct (Z.ltb_spec (2 ^ 63 - 1) (clock 1%nat - clock O)); lia. }
  destruct c as [pending]. simpl.
  destruct pending as [|r rest]; simpl; rewrite respId_differs; simpl;
    destruct (Z.ltb_spec (Since (clock 1%nat) (clock O)) timeout);
    try lia; reflexivity.
Qed.

End Reading.

Section Writing.
Context {P : Packets} {E : PacketEncoders}.

(** What is asked of go-ethereum's encoders and decoders: the decoder
    reads back what the encoder wrote. *)
Definition ethCodec : Prop :=
  forall t (x : eth t) b, encodeEth t x = Some b ->
    DecodeBytes (decodeEth t) b = Some x.

Definition eth66Codec : Prop :=
  forall t (x : eth66 t) b, encodeEth66 t x = Some b ->
    DecodeBytes (decodeEth66 t) b = Some x.

Definition snapCodec : Prop :=
  forall t (x : snap t) b, encodeSnap t x = Some b ->
    DecodeBytes (decodeSnap t) b = Some x.

Definition reasonsCodec : Prop :=
  forall ds b, encodeDiscReasons ds = Some b ->
    DecodeBytes decodeDiscReasons b = Some ds.

Definition capCodec : Prop :=
  forall x b, encodeCap x = Some b ->
    b <> [] /\ forall rest, decodeCap (b ++ rest) = Some (x, rest).

(** A raw value: bytes that [Stream.Raw] reads back as they are, which
    is the canonical encoding of one rlp value. *)
Definition rawValue (r : list byte) : Prop :=
  r <> [] /\ forall rest, decodeRaw (r ++ rest) = Some (r, rest).

(** The values that the Go types of the messages declared here can
    hold: numbers within their integer type, hashes of 32 bytes, raw
    values that are rlp. *)
Definition wellFormed (msg : Message) : Prop :=
  match msg with
  | MsgHello h =>
      (Version h < 2 ^ 64)%N /\ (ListenPort h < 2 ^ 64)%N /\
      Forall rawValue (Rest h)
  | MsgNewPooledTransactionHashes66 hashes =>
      Forall (fun h => length h = 32%nat) hashes
  | MsgNewPooledTransactionHashes m =>
      Forall (fun h => length h = 32%nat) (Hashes m) /\
      Forall (fun n => (n < 2 ^ 32)%N) (Sizes m)
  | _ => True
  end.

Lemma decodeSliceElems_encoded {T} (elem : Decoder T) (xs : list T)
    (bs : list (list byte)) :
  Forall2 (fun x b => b <> [] /\
                      forall rest, elem (b ++ rest) = Some (x, rest)) xs bs ->
  forall fuel, (length (concat bs) <= fuel)%nat ->
  decodeSliceElems fuel elem (concat bs) = Some xs.
Proof.
  induction 1 as [|x b xs bs [Hne Hx] _ IH]; intros fuel Hfuel.
  - destruct fuel; reflexivity.
  - simpl in *. rewrite length_app in Hfuel.
    destruct b as [|b0 b]; [contradiction|].
    simpl in *. destruct fuel as [|fuel]; [lia|].
    specialize (Hx (concat bs)). simpl in Hx.
    cbn [decodeSliceElems]. rewrite Hx. simpl.
    rewrite IH by lia. reflexivity.
Qed.

Lemma decodeListSlice_encoded {T} (elem : Decoder T) (xs : list T)
    (bs : list (list byte)) (rest : list byte) :
  Forall2 (fun x b => b <> [] /\
                      forall rest, elem (b ++ rest) = Some (x, rest)) xs bs ->
  (N.of_nat (length (concat bs)) < 2 ^ 64)%N ->
  decodeListSlice elem (encodeList bs ++ rest) = Some (xs, rest).
Proof.
  intros Hxs Hlen. unfold decodeListSlice, encodeList.
  rewrite <- app_assoc, RLPFacts.enterList_puthead by exact Hlen. simpl.
  rewrite (decodeSliceElems_encoded elem xs bs Hxs) by lia. reflexivity.
Qed.

Lemma length_encodeUint_pos i : (1 <= length (encodeUint i))%nat.
Proof.
  pose proof (RLPFacts.encodeUint_nonempty i).
  destruct (encodeUint i); [contradiction | simpl; lia].
Qed.

(** [Hello] is read back from its encoding. *)
Lemma decodeHello_encoded (h : Hello) (caps : list (list byte)) :
  capCodec ->
  wellFormed (MsgHello h) ->
  mapM encodeCap (Caps h) = Some caps ->
  let payload :=
    encodeList ([encodeUint (Version h); encodeBytes (Name h);
                 encodeList caps; encodeUint (ListenPort h);
                 encodeBytes (Hello_ID h)] ++ Rest h) in
  (N.of_nat (length payload) < 2 ^ 64)%N ->
  DecodeBytes decodeHello payload = Some h.
Proof.
  intros Hcap (Hversion & Hport & Hrest) Hcaps payload Hlen.
  destruct h as [version name hcaps port hid rest]. simpl in *.
  apply mapM_Some_1 in Hcaps.
  assert (Hcaps' : Forall2 (fun x b => b <> [] /\
             forall rest, decodeCap (b ++ rest) = Some (x, rest)) hcaps caps).
  { eapply Forall2_impl; [exact Hcaps|]. intros x b Hb. exact (Hcap x b Hb). }
  subst payload.
  set (e1 := encodeUint version) in *.
  set (e2 := encodeBytes name) in *.
  set (e3 := encodeList caps) in *.
  set (e4 := encodeUint port) in *.
  set (e5 := encodeBytes hid) in *.
  pose proof (RLPFacts.length_encodeList
                (e1 :: e2 :: e3 :: e4 :: e5 :: rest)) as Hle.
  pose proof (RLPFacts.length_encodeList caps) as Hle3. fold e3 in Hle3.
  assert (Hsum : length (concat (e1 :: e2 :: e3 :: e4 :: e5 :: rest)) =
            (length e1 + (length e2 + (length e3 + (length e4 +
               (length e5 + length (concat rest))))))%nat).
  { simpl. rewrite !length_app. reflexivity. }
  assert (Hname : (length name <= length e2)%nat).
  { subst e2. unfold encodeBytes.
    destruct name as [|b0 [|b1 ts]]; try (rewrite length_app; lia).
    destruct (_ <=? _)%N; [simpl; lia | rewrite length_app; lia]. }
  assert (Hid : (length hid <= length e5)%nat).
  { subst e5. unfold encodeBytes.
    destruct hid as [|b0 [|b1 ts]]; try (rewrite length_app; lia).
    destruct (_ <=? _)%N; [simpl; lia | rewrite length_app; lia]. }
  unfold DecodeBytes, decodeHello, decodeStruct, encodeList at 1.
  rewrite <- (app_nil_r (concat _)) at 2.
  rewrite RLPFacts.enterList_puthead by lia. simpl.
  subst e1.
  rewrite (RLPFacts.decodeUint_encodeUint 64 version _ 8)
    by (try exact Hversion; try lia; vm_compute; discriminate).
  simpl. subst e2. rewrite RLPFacts.decodeByteSlice_encodeBytes by lia.
  simpl. subst e3.
  rewrite (decodeListSlice_encoded decodeCap hcaps caps) by (try assumption; lia).
  simpl. subst e4.
  rewrite (RLPFacts.decodeUint_encodeUint 64 port _ 8)
    by (try exact Hport; try lia; vm_compute; discriminate).
  simpl. subst e5. rewrite RLPFacts.decodeByteSlice_encodeBytes by lia.
  simpl.
  rewrite <- (map_id rest) at 2.
  rewrite (RLPFacts.decodeSliceElems_concat decodeRaw id rest).
  - reflexivity.
  - exact Hrest.
  - rewrite map_id. lia.
Qed.

Ltac written Hw Henc :=
  unfold Write in Hw; simpl in Hw;
  match type of Hw with
  | context [?enc ≫= _] =>
      destruct enc as [l|] eqn:Henc; simpl in Hw; [|discriminate]
  | _ => idtac
  end;
  injection Hw as <- <-.

(** What [Write] sends, [Read] gives back: for every control and
    chain-sync message other than the single-reason [Disconnect], whose
    data the decoder of the list of reasons gets to see first, reading the
    written frame returns the message that was written. *)
Theorem Write_Read_roundtrip msg v code payload rest :
  ethCodec -> eth66Codec -> reasonsCodec -> capCodec ->
  variantOf msg = Some v -> v <> disconnect ->
  recognized (wireCode v) = true ->
  wellFormed msg ->
  Write msg = Some (code, payload) ->
  (N.of_nat (length payload) < 2 ^ 64)%N ->
  Read (mkConn (readFrame code payload :: rest)) = Some (msg, mkConn rest).
Proof.
  intros Heth Heth66 Hreasons Hcap Hv Hne Hrec Hwf Hw Hlen.
  unfold Read. simpl. f_equal. f_equal.
  destruct msg; simpl in Hv; try discriminate Hv; injection Hv as <-;
    try discriminate Hrec; try congruence; clear Hne Hrec.
  - (* Hello *)
    unfold Write in Hw. simpl in Hw.
    destruct (mapM encodeCap (Caps msg)) as [caps|] eqn:Hcaps; simpl in Hw;
      [|discriminate].
    injection Hw as <- Hp.
    assert (Hdec : DecodeBytes decodeHello payload = Some msg).
    { rewrite <- Hp in Hlen |- *.
      exact (decodeHello_encoded msg caps Hcap Hwf Hcaps Hlen). }
    unfold readFrameMessage, decodeInto. simpl.
    rewrite Hdec. reflexivity.
  - (* Disconnects *)
    written Hw Henc. unfold readFrameMessage, decodeInto. simpl.
    pose proof (Hreasons _ _ Henc) as Hdec.
    change (DecodeBytes decodeDisconnects l = Some msg) in Hdec.
    rewrite Hdec. reflexivity.
  - (* Ping *) written Hw Henc. reflexivity.
  - (* Pong *) written Hw Henc. reflexivity.
  - written Hw Henc. unfold readFrameMessage, decodeInto. simpl.
    rewrite (Heth _ _ _ Henc). reflexivity.
  - written Hw Henc. unfold readFrameMessage, decodeInto. simpl.
    rewrite (Heth _ _ _ Henc). reflexivity.
  - written Hw Henc. unfold readFrameMessage, decodeInto. simpl.
    rewrite (Heth _ _ _ Henc). reflexivity.
  - written Hw Henc. unfold readFrameMessage, decodeInto. simpl.
    rewrite (Heth66 _ _ _ Henc). reflexivity.
  - written Hw Henc. unfold readFrameMessage, decodeInto. simpl.
    rewrite (Heth66 _ _ _ Henc). reflexivity.
  - written Hw Henc. unfold readFrameMessage, decodeInto. simpl.
    rewrite (Heth66 _ _ _ Henc). reflexivity.
  - written Hw Henc. unfold readFrameMessage, decodeInto. simpl.
    rewrite (Heth66 _ _ _ Henc). reflexivity.
  - written Hw Henc. unfold readFrameMessage, decodeInto. simpl.
    rewrite (Heth _ _ _ Henc). reflexivity.
  - (* the legacy announcement *)
    written Hw Henc. unfold readFrameMessage, decodeInto. simpl.
    rewrite (decode_typed_rejects_legacy msg Hwf Hlen).
    rewrite (decode_legacy_hashes msg Hwf Hlen). reflexivity.
  - (* the typed announcement *)
    written Hw Henc. destruct Hwf as [Hhashes Hsizes].
    unfold readFrameMessage. simpl.
    rewrite (decode_typed_hashes msg Hhashes Hsizes Hlen). reflexivity.
  - written Hw Henc. unfold readFrameMessage, decodeInto. simpl.
    rewrite (Heth66 _ _ _ Henc). reflexivity.
  - written Hw Henc. unfold readFrameMessage, decodeInto. simpl.
    rewrite (Heth66 _ _ _ Henc). reflexivity.
Qed.

(** A state-sync message that [Write] sends is returned by [ReadSnap]
    as it was written, whatever request id is asked for, while [Read]
    makes an error message of the same frame. *)
Theorem Write_ReadSnap_roundtrip timeout clock id t (p : snap t) code payload rest :
  snapCodec ->
  waiting timeout clock 1 ->
  Write (snapMessage t p) = Some (code, payload) ->
  ReadSnap timeout clock (mkConn (readFrame code payload :: rest)) id =
    Some (inl (snapMessage t p), mkConn rest) /\
  exists e,
    Read (mkConn (readFrame code payload :: rest)) =
    Some (MsgError e, mkConn rest).
Proof.
  intros Hsnap Hwait Hw.
  assert (Hcode : stateSyncCode (int_of_uint64 code) = Some t /\
                  encodeSnap t p = Some payload).
  { unfold Write in Hw.
    destruct t; simpl in Hw;
      match type of Hw with
      | context [?enc ≫= _] => destruct enc eqn:Henc; simpl in Hw; [|discriminate]
      end; injection Hw as <- <-; split; reflexivity. }
  destruct Hcode as [Hcode Henc]. split.
  - unfold ReadSnap. simpl incoming.
    rewrite (readSnapLoop_frame _ _ _ _ _ _ _ Hwait), Hcode.
    rewrite (Hsnap _ _ _ Henc). reflexivity.
  - assert (Hrec : recognized (int_of_uint64 code) = false).
    { destruct (int_of_uint64 code) as [|q|q]; try discriminate.
      do 6 (destruct q as [q|q|]; try discriminate); reflexivity. }
    destruct (readFrameMessage_unrecognized _ payload Hrec) as [e He].
    exists {| err := e |}. unfold Read. simpl. rewrite He. reflexivity.
Qed.

End Writing.

(** *** Examples on packets without content

    For the examples each type of go-ethereum is a struct without
    fields, written as the empty list; only the empty list of disconnect
    reasons can be written. *)

Definition decodeNoReasons : Decoder (list unit) := fun bs =>
  '(_, rest) ← decodeEmptyStruct bs;
  Some ([], rest).

#[local] Instance emptyPackets : Packets := {|
  DiscReason := unit;
  decodeDiscReason := decodeEmptyStruct;
  decodeDiscReasons := decodeNoReasons;
  Cap := unit;
  decodeCap := decodeEmptyStruct;
  eth := fun _ => unit;
  decodeEth := fun _ => decodeEmptyStruct;
  eth66 := fun _ => unit;
  RequestId := fun _ _ => 0;
  decodeEth66 := fun _ => decodeEmptyStruct;
  snap := fun _ => unit;
  ID := fun _ _ => 0;
  decodeSnap := fun _ => decodeEmptyStruct
|}.

#[local] Instance emptyEncoders : PacketEncoders (P := emptyPackets) := {|
  encodeDiscReason := fun _ => Some [xc0];
  encodeDiscReasons := fun ds => match ds with [] => Some [xc0] | _ => None end;
  encodeCap := fun _ => Some [xc0];
  encodeEth := fun _ _ => Some [xc0];
  encodeEth66 := fun _ _ => Some [xc0];
  encodeSnap := fun _ _ => Some [xc0]
|}.

Definition sampleHello : Hello (P := emptyPackets) :=
  {| Version := 5; Name := [x61; x62]; Caps := [tt]; ListenPort := 30303;
     Hello_ID := [x01; x02; x03]; Rest := [[x05]] |}.

Lemma decodeEmptyStruct_c0 rest :
  decodeEmptyStruct ([xc0] ++ rest) = Some (tt, rest).
Proof.
  pose proof (RLPFacts.enterList_puthead [] rest ltac:(vm_compute; reflexivity))
    as Henter.
  change (enterList ([xc0] ++ rest) = Some ([], rest)) in Henter.
  unfold decodeEmptyStruct, decodeStruct. rewrite Henter. reflexivity.
Qed.

Lemma rawValue_x05 : rawValue [x05].
Proof.
  split; [discriminate|]. intros rest. unfold decodeRaw, nextKind. simpl.
  destruct (N.leb_spec 0 (N.of_nat (length rest))) as [_|Hneg];
    [reflexivity | lia].
Qed.

Lemma emptyPackets_ethCodec : ethCodec (E := emptyEncoders).
Proof. intros t [] b [= <-]. reflexivity. Qed.

Lemma emptyPackets_eth66Codec : eth66Codec (E := emptyEncoders).
Proof. intros t [] b [= <-]. reflexivity. Qed.

Lemma emptyPackets_snapCodec : snapCodec (E := emptyEncoders).
Proof. intros t [] b [= <-]. reflexivity. Qed.

Lemma emptyPackets_reasonsCodec : reasonsCodec (E := emptyEncoders).
Proof. intros [|d ds] b; [|discriminate]. intros [= <-]. reflexivity. Qed.

Lemma emptyPackets_capCodec : capCodec (E := emptyEncoders).
Proof.
  intros [] b [= <-]. split; [discriminate|]. apply decodeEmptyStruct_c0.
Qed.

Lemma Write_Read_roundtrip_witness :
  exists code payload,
    Write (E := emptyEncoders) (MsgHello sampleHello) = Some (code, payload) /\
    Read (mkConn [readFrame code payload]) =
    Some (MsgHello sampleHello, mkConn []).
Proof.
  eexists _, _. split; [reflexivity|].
  apply (Write_Read_roundtrip (E := emptyEncoders) (MsgHello sampleHello) hello).
  - exact emptyPackets_ethCodec.
  - exact emptyPackets_eth66Codec.
  - exact emptyPackets_reasonsCodec.
  - exact emptyPackets_capCodec.
  - reflexivity.
  - discriminate.
  - reflexivity.
  - simpl. repeat split; try (vm_compute; reflexivity).
    repeat constructor; apply rawValue_x05.
  - reflexivity.
  - vm_compute. reflexivity.
Defined.

Lemma Write_ReadSnap_roundtrip_witness :
  exists code payload,
    Write (E := emptyEncoders) (MsgByteCodes tt) = Some (code, payload) /\
    ReadSnap (10 * Second) sampleClock (mkConn [readFrame code payload]) 5 =
      Some (inl (MsgByteCodes tt), mkConn []).
Proof.
  eexists _, _. split; [reflexivity|].
  apply (Write_ReadSnap_roundtrip (E := emptyEncoders) (10 * Second) sampleClock
           5 ByteCodesPacket tt).
  - exact emptyPackets_snapCodec.
  - vm_compute. reflexivity.
  - reflexivity.
Defined.


Lemma ReadSnap_no_time_witness :
  ReadSnap (P := rawPackets) 0 sampleClock (mkConn [readFrame 34 [xc1; x07]]) 5
  = Some (inr errTimedOut, mkConn [readFrame 34 [xc1; x07]]).
Proof.
  apply (ReadSnap_no_time (P := rawPackets) 0 sampleClock).
  - lia.
  - vm_compute. discriminate.
Defined.

End CodecProps.

(** ** The mnemonic command *)

Module MnemonicProps.
Import Mnemonic.
Local Open Scope Z_scope.

(** [PreRunE] lets exactly five word counts through: 12, 15, 18, 21 and
    24, the default among them.  Of the three checks the lower bound is
    reported first, then the upper bound, then the multiple of 3. *)
Theorem PreRunE_accepts (words : Z) :
  (PreRunE words = None <->
   words = 12 \/ words = 15 \/ words = 18 \/ words = 21 \/ words = 24) /\
  PreRunE defaultWords = None /\
  (words < 12 -> PreRunE words = Some (tooFewWords words)) /\
  (24 < words -> PreRunE words = Some (tooManyWords words)) /\
  (12 <= words <= 24 -> Z.rem words 3 <> 0 ->
   PreRunE words = Some notMultipleOf3).
Proof.
  split; [|split; [reflexivity|]].
  - unfold PreRunE.
    destruct (Z.ltb_spec words 12) as [Hlow|Hlow];
      [split; [discriminate|lia]|].
    destruct (Z.ltb_spec 24 words) as [Hhigh|Hhigh];
      [split; [discriminate|lia]|].
    destruct (Z.eqb_spec (Z.rem words 3) 0) as [Hrem|Hrem]; simpl.
    + split; [intros _|reflexivity].
      pose proof (Z.rem_mod_nonneg words 3) as Hmod.
      rewrite Hmod in Hrem by lia.
      apply Z.mod_divide in Hrem; [|lia].
      destruct Hrem as [k Hk]. lia.
    + split; [discriminate|].
      intros Hw. exfalso. apply Hrem.
      destruct Hw as [->|[->|[->|[->| ->]]]]; reflexivity.
  - unfold PreRunE. split; [|split].
    + intros Hlow. apply Z.ltb_lt in Hlow. rewrite Hlow. reflexivity.
    + intros Hhigh.
      destruct (Z.ltb_spec words 12) as [Hlow|_]; [lia|].
      apply Z.ltb_lt in Hhigh. rewrite Hhigh. reflexivity.
    + intros [Hlow Hhigh] Hrem.
      destruct (Z.ltb_spec words 12) as [Hlow'|_]; [lia|].
      destruct (Z.ltb_spec 24 words) as [Hhigh'|_]; [lia|].
      destruct (Z.eqb_spec (Z.rem words 3) 0) as [Hzero|_];
        [contradiction|reflexivity].
Qed.

End MnemonicProps.
